(** * target-postgres: schema flattening, identifier inflection and table sync

    A shallow embedding of [target_postgres/db_sync.py].

    Conventions of the embedding.
    - A Python [str] is a list of characters ([str]); the names handled by
      this module are column and property names, modelled over ASCII: the
      case mappings [upper] and [lower] move the letters [a-z] / [A-Z] and
      leave every other character alone.
    - A Python [dict] is an association list in insertion order, keys unique.
    - A function that can raise returns a [result]; the exception classes that
      the module can meet are the constructors of [exn].
    - The three functions of the [inflection] package and of [re] that the
      module calls ([inflection.underscore], [inflection.camelize], [re.sub])
      are embedded from their published definitions, next to their callers.
    - The database is the environment of the module: a [session] records the
      statements sent to it, and a [database] says which of them it refuses.
      Logging is left out. *)

From Stdlib Require Import Ascii String Lia Bool Arith ZArith DecimalString Sorting.Sorted.
From stdpp Require Import list.

Local Open Scope string_scope.
Local Open Scope list_scope.
Local Open Scope nat_scope.

(** ** Strings *)

Definition str := list ascii.

Definition str_of_string (s : string) : str := list_ascii_of_string s.
Coercion str_of_string : string >-> str.

Definition strs (l : list string) : list str := map str_of_string l.

Definition code (c : ascii) : nat := nat_of_ascii c.

Definition is_upper (c : ascii) : bool := (65 <=? code c) && (code c <=? 90).
Definition is_lower (c : ascii) : bool := (97 <=? code c) && (code c <=? 122).
Definition is_digit (c : ascii) : bool := (48 <=? code c) && (code c <=? 57).
Definition is_char (x c : ascii) : bool := Ascii.eqb x c.

Definition underscore_char : ascii := "_"%char.
Definition hyphen_char : ascii := "-"%char.
Definition newline_char : ascii := ascii_of_nat 10.
Definition space_char : ascii := " "%char.

(** [c.upper()] and [c.lower()] for one character. *)
Definition upper_char (c : ascii) : ascii :=
  if is_lower c then ascii_of_nat (code c - 32) else c.
Definition lower_char (c : ascii) : ascii :=
  if is_upper c then ascii_of_nat (code c + 32) else c.

(** [s.lower()] *)
Definition lower (s : str) : str := map lower_char s.

(** [s.replace(a, b)] for single characters [a] and [b]. *)
Definition replace_char (a b : ascii) (s : str) : str :=
  map (fun c => if is_char a c then b else c) s.

(** [sep.join(parts)] *)
Fixpoint join (sep : str) (parts : list str) : str :=
  match parts with
  | [] => []
  | [p] => p
  | p :: rest => p ++ sep ++ join sep rest
  end.

(** [''.join(parts)]: how the [format] templates are spelled out. *)
Definition cat (parts : list str) : str := concat parts.

Definition quote_char : ascii := ascii_of_nat 34.

Definition safe_column_name (name : str) : str := cat [[quote_char]; name; [quote_char]].

(** Comparison of strings: equality, and the order of [<] on Python strings
    (lexicographic on the character codes). *)
Fixpoint str_eqb (a b : str) : bool :=
  match a, b with
  | [], [] => true
  | x :: a', y :: b' => is_char x y && str_eqb a' b'
  | _, _ => false
  end.

Fixpoint str_ltb (a b : str) : bool :=
  match a, b with
  | _, [] => false
  | [], _ :: _ => true
  | x :: a', y :: b' =>
      if code x <? code y then true
      else if code y <? code x then false
      else str_ltb a' b'
  end.

Definition str_leb (a b : str) : bool := negb (str_ltb b a).

(** [needle in s] for two strings: [needle] occurs in [s]. *)
Fixpoint starts_with (needle s : str) : bool :=
  match needle, s with
  | [], _ => true
  | x :: needle', y :: s' => is_char x y && starts_with needle' s'
  | _ :: _, [] => false
  end.

Fixpoint is_substring (needle s : str) : bool :=
  starts_with needle s ||
  match s with
  | [] => false
  | _ :: s' => is_substring needle s'
  end.

(** ** Values, exceptions, dictionaries *)

(** The values of a parsed schema or record.  Numbers are the integers. *)
#[local] Unset Elimination Schemes.
Inductive json : Type :=
| JNull
| JBool (b : bool)
| JNum (n : Z)
| JStr (s : str)
| JArr (elements : list json)
| JObj (entries : list (str * json)).
#[local] Set Elimination Schemes.

Definition dict := list (str * json).

(** Induction on a value, with the property known of the elements of a list
    and of the values of a dictionary. *)
Section json_induction.
Variable P : json -> Prop.
Hypothesis HNull : P JNull.
Hypothesis HBool : forall b, P (JBool b).
Hypothesis HNum : forall n, P (JNum n).
Hypothesis HStr : forall s, P (JStr s).
Hypothesis HArr : forall elements, Forall P elements -> P (JArr elements).
Hypothesis HObj : forall entries, Forall (fun kv => P kv.2) entries -> P (JObj entries).

Fixpoint json_ind (v : json) : P v :=
  match v with
  | JNull => HNull
  | JBool b => HBool b
  | JNum n => HNum n
  | JStr s => HStr s
  | JArr elements =>
      HArr elements
        ((fix all (l : list json) : Forall P l :=
            match l with
            | [] => List.Forall_nil P
            | x :: rest => @List.Forall_cons _ P x rest (json_ind x) (all rest)
            end) elements)
  | JObj entries =>
      HObj entries
        ((fix all (l : list (str * json)) : Forall (fun kv => P kv.2) l :=
            match l with
            | [] => List.Forall_nil _
            | (k, x) :: rest =>
                @List.Forall_cons _ (fun kv => P kv.2) (k, x) rest (json_ind x) (all rest)
            end) entries)
  end.
End json_induction.

Inductive exn : Type :=
| ValueError (message : str)
| KeyError
| IndexError
| TypeError
| AttributeError
| DataError        (* psycopg2.DataError *)
| DatabaseError.   (* any other psycopg2.Error *)

Inductive result (A : Type) : Type :=
| Ok (value : A)
| Raise (e : exn).
Arguments Ok {A} value.
Arguments Raise {A} e.

Definition bind {A B} (r : result A) (k : A -> result B) : result B :=
  match r with
  | Ok a => k a
  | Raise e => Raise e
  end.

Notation "x <- r ;; k" := (bind r (fun x => k))
  (at level 100, r at next level, right associativity).

(** [for x in xs: ys.append(f(x))], stopping at the first exception. *)
Fixpoint map_result {A B} (f : A -> result B) (xs : list A) : result (list B) :=
  match xs with
  | [] => Ok []
  | x :: rest => y <- f x ;; ys <- map_result f rest ;; Ok (y :: ys)
  end.

(** [k in d], [d.get(k)] and [d[k] = v] on a dictionary. *)
Fixpoint dict_get {V} (k : str) (d : list (str * V)) : option V :=
  match d with
  | [] => None
  | (k', v) :: rest => if str_eqb k k' then Some v else dict_get k rest
  end.

Definition has_key {V} (k : str) (d : list (str * V)) : bool :=
  match dict_get k d with Some _ => true | None => false end.

Fixpoint dict_set {V} (k : str) (v : V) (d : list (str * V)) : list (str * V) :=
  match d with
  | [] => [(k, v)]
  | (k', v') :: rest =>
      if str_eqb k k' then (k', v) :: rest else (k', v') :: dict_set k v rest
  end.

(** [dict(items)]: later pairs overwrite earlier ones, at the place of the
    first. *)
Definition dict_update {V} (d : list (str * V)) (kv : str * V) : list (str * V) :=
  dict_set kv.1 kv.2 d.

Definition dict_of_items {V} (items : list (str * V)) : list (str * V) :=
  fold_left dict_update items [].

Definition keys {V} (d : list (str * V)) : list str := map fst d.

(** [value[k]] for a string [k]: only a dictionary can be indexed by one. *)
Definition getitem (value : json) (k : str) : result json :=
  match value with
  | JObj entries =>
      match dict_get k entries with
      | Some v => Ok v
      | None => Raise KeyError
      end
  | _ => Raise TypeError
  end.

(** [name in container] for a string [name]: substring of a string, element
    of a list, key of a dictionary; nothing else is iterable. *)
Definition is_JStr (name : str) (value : json) : bool :=
  match value with
  | JStr s => str_eqb name s
  | _ => false
  end.

Definition contains (name : str) (container : json) : result bool :=
  match container with
  | JStr s => Ok (is_substring name s)
  | JArr elements => Ok (existsb (is_JStr name) elements)
  | JObj entries => Ok (has_key name entries)
  | _ => Raise TypeError
  end.

(** [not v] is [negb (truthy v)]. *)
Definition truthy (v : json) : bool :=
  match v with
  | JNull => false
  | JBool b => b
  | JNum n => negb (Z.eqb n 0)
  | JStr s => negb (Nat.eqb (length s) 0)
  | JArr elements => negb (Nat.eqb (length elements) 0)
  | JObj entries => negb (Nat.eqb (length entries) 0)
  end.

(** [a or b] and [a and b] on conditions that can raise: [b] is evaluated
    only when [a] does not decide. *)
Definition or_else (a b : result bool) : result bool :=
  x <- a ;; if x then Ok true else b.
Definition and_then (a b : result bool) : result bool :=
  x <- a ;; if x then b else Ok false.

(** ** Type mapping *)

Definition column_type (schema_property : json) : result str :=
  property_type <- getitem schema_property "type" ;;
  property_format <-
    (c <- contains "format" schema_property ;;
     if c then getitem schema_property "format" else Ok JNull) ;;
  c1 <- or_else (contains "object" property_type) (contains "array" property_type) ;;
  if c1 then Ok ("jsonb" : str)
  else if is_JStr "date-time" property_format then Ok ("timestamp without time zone" : str)
  else
    c3 <- contains "number" property_type ;;
    if c3 then Ok ("numeric" : str)
    else
      c4 <- and_then (contains "integer" property_type) (contains "string" property_type) ;;
      if c4 then Ok ("character varying" : str)
      else
        c5 <- contains "integer" property_type ;;
        if c5 then Ok ("bigint" : str)
        else
          c6 <- contains "boolean" property_type ;;
          if c6 then Ok ("boolean" : str)
          else Ok ("character varying" : str).

Definition column_clause (name : str) (schema_property : json) : result str :=
  type <- column_type schema_property ;;
  Ok (cat [safe_column_name name; " " : str; type]).

(** ** Regular-expression substitution

    [re.sub(pattern, repl, s)] scans [s] from the left; at each position it
    tries the pattern, and on success emits the replacement and resumes after
    the matched text, otherwise it copies one character and moves on.  A
    [matcher] is one pattern together with its replacement template: given
    whether the position is the start of the string and the text that remains,
    it returns the replacement text and the number of characters matched.
    None of the patterns below matches the empty string. *)

Definition matcher := bool -> str -> option (str * nat).

Fixpoint re_sub_from (m : matcher) (at_start : bool) (skip : nat) (s : str) : str :=
  match s with
  | [] => []
  | c :: t =>
      match skip with
      | S k => re_sub_from m false k t
      | O =>
          match m at_start s with
          | Some (rep, n) => rep ++ re_sub_from m false (pred n) t
          | None => c :: re_sub_from m false 0 t
          end
      end
  end.

Definition re_sub (m : matcher) (s : str) : str := re_sub_from m true 0 s.

(** Length of the longest prefix of upper-case letters: what a greedy
    [[A-Z]+] takes first. *)
Fixpoint upper_run (s : str) : nat :=
  match s with
  | c :: t => if is_upper c then S (upper_run t) else 0
  | [] => 0
  end.

(** Backtracking of a greedy [+]: the candidates [n], [n-1], ..., [1] for the
    length of the repeated group, the first that lets the rest match wins. *)
Fixpoint backtrack {A} (n : nat) (attempt : nat -> option A) : option A :=
  match n with
  | O => None
  | S k =>
      match attempt (S k) with
      | Some r => Some r
      | None => backtrack k attempt
      end
  end.

(** [([A-Z]+)_([A-Z][a-z])] with template [\1__\2] *)
Definition acronym_underscore : matcher := fun _ s =>
  backtrack (upper_run s) (fun n =>
    match drop n s with
    | u :: c1 :: c2 :: _ =>
        if is_char underscore_char u && is_upper c1 && is_lower c2
        then Some (take n s ++ [underscore_char; underscore_char; c1; c2], n + 3)
        else None
    | _ => None
    end).

(** [([a-z\d])_([A-Z])] with template [\1__\2] *)
Definition camel_underscore : matcher := fun _ s =>
  match s with
  | c0 :: u :: c1 :: _ =>
      if (is_lower c0 || is_digit c0) && is_char underscore_char u && is_upper c1
      then Some ([c0; underscore_char; underscore_char; c1], 3)
      else None
  | _ => None
  end.

(** [([A-Z]+)([A-Z][a-z])] with template [\1_\2] *)
Definition acronym_boundary : matcher := fun _ s =>
  backtrack (upper_run s) (fun n =>
    match drop n s with
    | c1 :: c2 :: _ =>
        if is_upper c1 && is_lower c2
        then Some (take n s ++ [underscore_char; c1; c2], n + 2)
        else None
    | _ => None
    end).

(** [([a-z\d])([A-Z])] with template [\1_\2] *)
Definition camel_boundary : matcher := fun _ s =>
  match s with
  | c0 :: c1 :: _ =>
      if (is_lower c0 || is_digit c0) && is_upper c1
      then Some ([c0; underscore_char; c1], 2)
      else None
  | _ => None
  end.

(** [(?:^|_)(.)] with the replacement [m.group(1).upper()]; [.] matches any
    character but a newline, [^] only the start of the string. *)
Definition camel_hump : matcher := fun at_start s =>
  match s with
  | c :: rest =>
      if at_start && negb (is_char newline_char c) then Some ([upper_char c], 1)
      else if is_char underscore_char c then
        match rest with
        | d :: _ => if negb (is_char newline_char d) then Some ([upper_char d], 2) else None
        | [] => None
        end
      else None
  | [] => None
  end.

(** [[a-z]] with the empty replacement *)
Definition lower_letter : matcher := fun _ s =>
  match s with
  | c :: _ => if is_lower c then Some ([], 1) else None
  | [] => None
  end.

(** ** The [inflection] package *)

Module inflection.

(** [inflection.underscore(word)] *)
Definition underscore (word : str) : str :=
  let word := re_sub acronym_boundary word in
  let word := re_sub camel_boundary word in
  let word := replace_char hyphen_char underscore_char word in
  lower word.

(** [inflection.camelize(string)], with [uppercase_first_letter=True] *)
Definition camelize (s : str) : str := re_sub camel_hump s.

End inflection.

(** ** Identifier inflection *)

Definition inflect_column_name (name : str) : str :=
  let name := re_sub acronym_underscore name in
  let name := re_sub camel_underscore name in
  inflection.underscore name.

(** The body of the shortening loop of [flatten_key] for one segment:
    [reduced_key] and the value stored back in [inflected_key]. *)
Definition reduced_key (segment : str) : str :=
  re_sub lower_letter (inflection.camelize segment).

Definition shortened (segment : str) : str :=
  lower (if 1 <? length (reduced_key segment) then reduced_key segment
         else take 3 segment).

(** The [while] loop of [flatten_key].  Each round advances [reducer_index],
    which the guard keeps below [len(inflected_key)]: [fuel] counts the rounds
    that are left, and [len(inflected_key)] of them always suffice. *)
Fixpoint shorten_loop (fuel : nat) (sep : str) (inflected_key : list str)
    (reducer_index : nat) : list str :=
  match fuel with
  | O => inflected_key
  | S fuel' =>
      if (63 <=? length (join sep inflected_key))
         && (reducer_index <? length inflected_key)
      then
        match inflected_key !! reducer_index with
        | Some segment =>
            shorten_loop fuel' sep
              (<[reducer_index := shortened segment]> inflected_key)
              (S reducer_index)
        | None => inflected_key
        end
      else inflected_key
  end.

Definition flatten_key (k : str) (parent_key : list str) (sep : str) : str :=
  let full_key := parent_key ++ [k] in
  let inflected_key := map inflect_column_name full_key in
  join sep (shorten_loop (length inflected_key) sep inflected_key 0).

Definition default_sep : str := "__".

(** ** Schema flattening *)

Definition items := list (str * json).

(** [NULL_TYPE = {'type': 'null'}], and [x == NULL_TYPE]. *)
Definition NULL_TYPE : json := JObj [("type" : str, JStr "null")].

Definition is_NULL_TYPE (x : json) : bool :=
  match x with
  | JObj [(k, v)] => str_eqb k "type" && is_JStr "null" v
  | _ => false
  end.

(** Position and value of the first element that is not [NULL_TYPE]:
    [list(filter(lambda x: x != NULL_TYPE, properties))[0]]. *)
Fixpoint first_non_null (properties : list json) : option (nat * json) :=
  match properties with
  | [] => None
  | x :: rest =>
      if is_NULL_TYPE x then
        match first_non_null rest with
        | Some (i, y) => Some (S i, y)
        | None => None
        end
      else Some (0, x)
  end.

Definition is_list (v : json) : bool :=
  match v with JArr _ => true | _ => false end.

(** [sorted(items, key=lambda item: item[0])]: the stable sort by key, here
    by insertion (stable sorts agree on their result). *)
Fixpoint insert_by_key {V} (x : str * V) (sorted : list (str * V)) : list (str * V) :=
  match sorted with
  | [] => [x]
  | y :: rest =>
      if str_leb x.1 y.1 then x :: y :: rest else y :: insert_by_key x rest
  end.

Fixpoint sorted_by_key {V} (l : list (str * V)) : list (str * V) :=
  match l with
  | [] => []
  | x :: rest => insert_by_key x (sorted_by_key rest)
  end.

(** [itertools.groupby(items, key=lambda item: item[0])]: the runs of
    consecutive items with equal keys. *)
Fixpoint groupby {V} (l : list (str * V)) : list (str * list (str * V)) :=
  match l with
  | [] => []
  | (k, v) :: rest =>
      match groupby rest with
      | (k', g) :: groups =>
          if str_eqb k k' then (k, (k, v) :: g) :: groups
          else (k, [(k, v)]) :: (k', g) :: groups
      | [] => [(k, [(k, v)])]
      end
  end.

Definition duplicate_message (k : str) : str :=
  cat ["Duplicate column name produced in schema: " : str; k].

(** The loop over the groups: [if len(list(g)) > 1: raise ValueError(...)]. *)
Definition check_groups {V} (groups : list (str * list (str * V))) : result (list unit) :=
  map_result
    (fun kg : str * list (str * V) =>
       if 1 <? length kg.2 then Raise (ValueError (duplicate_message kg.1))
       else Ok tt)
    groups.

(** Lines 89-95 of [flatten_schema]: sort, reject duplicates, build the
    dictionary. *)
Definition sorted_unique (collected : items) : result dict :=
  let sorted_items := sorted_by_key collected in
  _ <- check_groups (groupby sorted_items) ;;
  Ok (dict_of_items sorted_items).

(** A function of the module that assigns into its argument returns the
    argument as it is left, next to its result. *)
Definition effect (A : Type) : Type := json * result A.

(** The [elif 'anyOf' in v.keys()] branch, for the property [k] whose value
    [v] has the entries [fields]. *)
Definition any_of (k new_key : str) (fields : dict) : effect items :=
  let v := JObj fields in
  match fields with
  | [] => (v, Raise IndexError)
  | (first_key, properties) :: others =>
      match properties with
      | JArr branches =>
          if negb (existsb is_NULL_TYPE branches) || (2 <? length branches)
          then (v, Raise (ValueError (cat ["Unsupported column type anyOf: " : str; k])))
          else
            match first_non_null branches with
            | None => (v, Raise IndexError)
            | Some (i, property) =>
                match property with
                | JObj property_fields =>
                    match dict_get "type" property_fields with
                    | None => (v, Raise KeyError)
                    | Some type =>
                        let property' :=
                          if is_list type then property
                          else JObj (dict_set "type" (JArr [JStr "null"; type]) property_fields) in
                        (JObj ((first_key, JArr (<[i := property']> branches)) :: others),
                         Ok [(new_key, property')])
                    end
                | _ => (v, Raise TypeError)
                end
            end
      | _ => (v, Raise TypeError)
      end
  end.

(** The body of the [for k, v in d['properties'].items()] loop; [recurse] is
    the call [flatten_schema(v, parent_key + [k], sep=sep)]. *)
Definition property_items (recurse : json -> list str -> effect dict)
    (parent_key : list str) (sep : str) (k : str) (v : json) : effect items :=
  let new_key := flatten_key k parent_key sep in
  if negb (truthy v) then (v, Ok [])
  else
    match v with
    | JObj fields =>
        match dict_get "type" fields with
        | Some type =>
            match contains "object" type with
            | Raise e => (v, Raise e)
            | Ok true => recurse v (parent_key ++ [k])
            | Ok false => (v, Ok [(new_key, v)])
            end
        | None =>
            if has_key "anyOf" fields then any_of k new_key fields
            else (v, Raise (ValueError (cat ["Unsupported column type: " : str; k])))
        end
    | _ => (v, Raise AttributeError)
    end.

(** The loop over the properties, in order, up to the first exception. *)
Definition for_items (body : str -> json -> effect items) : dict -> dict * result items :=
  fix loop (properties : dict) :=
    match properties with
    | [] => ([], Ok [])
    | (k, v) :: rest =>
        let '(v', r) := body k v in
        match r with
        | Raise e => ((k, v') :: rest, Raise e)
        | Ok found =>
            let '(rest', r') := loop rest in
            ((k, v') :: rest', more <- r' ;; Ok (found ++ more))
        end
    end.

(** [d[k]] on the entries of [d], with what to do with the value and what
    to do without it. *)
Definition with_item {A} (k : str) (found : json -> A) (missing : A) : dict -> A :=
  fix lookup (entries : dict) :=
    match entries with
    | [] => missing
    | (k', v) :: rest => if str_eqb k k' then found v else lookup rest
    end.

Fixpoint flatten_schema (d : json) (parent_key : list str) (sep : str) {struct d}
  : effect dict :=
  match d with
  | JObj entries =>
      with_item "properties"
        (fun properties =>
           match properties with
           | JObj property_list =>
               let '(property_list', collected) :=
                 for_items
                   (property_items (fun v path => flatten_schema v path sep) parent_key sep)
                   property_list in
               (JObj (dict_set "properties" (JObj property_list') entries),
                found <- collected ;; sorted_unique found)
           | _ => (d, Raise AttributeError)
           end)
        (d, Raise KeyError)
        entries
  | _ => (d, Raise TypeError)
  end.

(** The list [items] of [flatten_schema] when its loop ends (lines 65-87),
    before the sort and the duplicate check. *)
Definition collected_items (d : json) (parent_key : list str) (sep : str) : result items :=
  match d with
  | JObj entries =>
      with_item "properties"
        (fun properties =>
           match properties with
           | JObj property_list =>
               (for_items
                  (property_items (fun v path => flatten_schema v path sep) parent_key sep)
                  property_list).2
           | _ => Raise AttributeError
           end)
        (Raise KeyError)
        entries
  | _ => Raise TypeError
  end.

(** ** Record flattening *)

Definition hex_digit (n : nat) : ascii :=
  if n <? 10 then ascii_of_nat (48 + n) else ascii_of_nat (87 + n).

(** One character inside a JSON string literal, as [json.dumps] writes it
    with [ensure_ascii]. *)
Definition json_escape (c : ascii) : str :=
  let n := code c in
  if n =? 34 then [ascii_of_nat 92; c]
  else if n =? 92 then [c; c]
  else if n =? 10 then [ascii_of_nat 92; "n"%char]
  else if n =? 13 then [ascii_of_nat 92; "r"%char]
  else if n =? 9 then [ascii_of_nat 92; "t"%char]
  else if n =? 8 then [ascii_of_nat 92; "b"%char]
  else if n =? 12 then [ascii_of_nat 92; "f"%char]
  else if (32 <=? n) && (n <=? 126) then [c]
  else [ascii_of_nat 92; "u"%char; "0"%char; "0"%char; hex_digit (n / 16); hex_digit (n mod 16)].

Definition json_string (s : str) : str :=
  cat [[quote_char]; concat (map json_escape s); [quote_char]].

(** [json.dumps(v)] *)
Fixpoint json_dumps (v : json) : str :=
  match v with
  | JNull => "null"
  | JBool true => "true"
  | JBool false => "false"
  | JNum n => NilZero.string_of_int (Z.to_int n)
  | JStr s => json_string s
  | JArr elements => cat ["[" : str; join ", " (map json_dumps elements); "]" : str]
  | JObj entries =>
      cat ["{" : str;
           join ", " (map (fun kv => let '(k, x) := kv in
                                     cat [json_string k; ": " : str; json_dumps x]) entries);
           "}" : str]
  end.

(** The value stored for a key that does not hold a mapping:
    [json.dumps(v) if type(v) is list else v]. *)
Definition record_value (v : json) : json :=
  match v with
  | JArr _ => JStr (json_dumps v)
  | _ => v
  end.

(** [flatten_record] recurses into the values that are mappings
    ([isinstance(v, collections.MutableMapping)], on an interpreter that has
    this alias: the dictionaries of a parsed record); the recursion is
    written on the value that holds the dictionary, and [flatten_record]
    below applies it to a dictionary, as every call of the module does (the
    last case is never reached). *)
Fixpoint flatten_mapping (d : json) (parent_key : list str) (sep : str) {struct d} : dict :=
  match d with
  | JObj entries =>
      dict_of_items
        ((fix loop (entries : dict) : items :=
            match entries with
            | [] => []
            | (k, v) :: rest =>
                let new_key := flatten_key k parent_key sep in
                match v with
                | JObj _ => flatten_mapping v (parent_key ++ [k]) sep
                | _ => [(new_key, record_value v)]
                end ++ loop rest
            end) entries)
  | _ => []
  end.

Definition flatten_record (d : dict) (parent_key : list str) (sep : str) : dict :=
  flatten_mapping (JObj d) parent_key sep.

(** ** The synchroniser *)

Definition primary_column_names (key_properties : list str) : list str :=
  map (fun p => safe_column_name (inflect_column_name p)) key_properties.

(** The fields of a [DbSync] object that the statements depend on:
    [connection_config['schema']], the stream name and key properties of the
    schema message, the flattened schema computed by [__init__], and the
    counter of rejected files. *)
Record DbSync : Type := {
  schema_name : str;
  stream : str;
  key_properties : list str;
  self_flatten_schema : dict;
  rejected_count : nat
}.

(** [DbSync.__init__] *)
Definition new_DbSync (connection_schema stream_name : str) (stream_keys : list str)
    (schema : json) : result DbSync :=
  flattened <- (flatten_schema schema [] default_sep).2 ;;
  Ok {| schema_name := connection_schema;
        stream := stream_name;
        key_properties := stream_keys;
        self_flatten_schema := flattened;
        rejected_count := 0 |}.

Definition nl : str := [newline_char].
Definition indent (n : nat) : str := repeat space_char n.

Definition table_name (self : DbSync) (name : str) (is_temporary : bool) : str :=
  if is_temporary then cat [name; "_temp" : str]
  else cat [schema_name self; "." : str; name].







Definition create_table_query (self : DbSync) (is_temporary : bool) : result str :=
  columns <- map_result (fun kv : str * json => column_clause kv.1 kv.2)
               (self_flatten_schema self) ;;
  let primary_key :=
    if 0 <? length (key_properties self)
    then [cat ["PRIMARY KEY (" : str;
               join ", " (primary_column_names (key_properties self)); ")" : str]]
    else [] in
  Ok (cat ["CREATE " : str; (if is_temporary then "TEMP " : str else []); "TABLE " : str;
           table_name self (stream self) is_temporary;
           " (" : str; join ", " (columns ++ primary_key); ")" : str]).


(** *** Database sessions

    What the module asks of the database: statements run on a cursor
    ([cur.execute], [self.query]) and the bulk copy ([cur.copy_expert]).  The
    database is the environment: [db log c] is the exception with which it
    answers the call [c] after the calls [log], if it raises one.  A
    [session] threads the log of the calls made. *)

Inductive db_call : Type :=
| Execute (sql : str) (params : list str)
| CopyExpert (sql : str).

Definition database := list db_call -> db_call -> option exn.

Definition session (A : Type) : Type := list db_call -> list db_call * result A.

Definition ret {A} (a : A) : session A := fun log => (log, Ok a).

Definition lift {A} (r : result A) : session A := fun log => (log, r).

Definition then_ {A B} (m : session A) (k : A -> session B) : session B :=
  fun log =>
    match m log with
    | (log', Ok a) => k a log'
    | (log', Raise e) => (log', Raise e)
    end.

Notation "x <~ m ;; k" := (then_ m (fun x => k))
  (at level 100, m at next level, right associativity).

Definition call (db : database) (c : db_call) : session unit :=
  fun log =>
    match db log c with
    | None => (log ++ [c], Ok tt)
    | Some e => (log ++ [c], Raise e)
    end.

(** [for x in xs: body(x)] *)
Fixpoint for_each {A} (body : A -> session unit) (xs : list A) : session unit :=
  match xs with
  | [] => ret tt
  | x :: rest => _ <~ body x ;; for_each body rest
  end.



(** A row of [information_schema.columns] as [get_table_columns] reads it. *)
Record catalog_column : Type := {
  column_name : str;
  data_type : str
}.

Definition get_table_columns_sql : str :=
  cat ["SELECT column_name, data_type" : str; nl;
       indent 6; "FROM information_schema.columns" : str; nl;
       indent 6; "WHERE lower(table_name) = %s AND lower(table_schema) = %s" : str].

Definition add_column (db : database) (self : DbSync) (column stream_name : str) : session unit :=
  call db (Execute (cat ["ALTER TABLE " : str; table_name self stream_name false;
                         " ADD COLUMN " : str; column]) []).

Definition drop_column (db : database) (self : DbSync) (name stream_name : str) : session unit :=
  call db (Execute (cat ["ALTER TABLE " : str; table_name self stream_name false;
                         " DROP COLUMN " : str; name]) []).

(** The two comprehensions of [update_columns], over the flattened schema. *)
Fixpoint columns_to_add (columns_dict : list (str * catalog_column)) (flattened : dict)
  : result (list str) :=
  match flattened with
  | [] => Ok []
  | (name, properties_schema) :: rest =>
      if negb (has_key (lower name) columns_dict) then
        clause <- column_clause name properties_schema ;;
        more <- columns_to_add columns_dict rest ;;
        Ok (clause :: more)
      else columns_to_add columns_dict rest
  end.

Fixpoint columns_to_replace (columns_dict : list (str * catalog_column)) (flattened : dict)
  : result (list (str * str)) :=
  match flattened with
  | [] => Ok []
  | (name, properties_schema) :: rest =>
      selected <-
        match dict_get (lower name) columns_dict with
        | Some column =>
            type <- column_type properties_schema ;;
            Ok (negb (str_eqb (lower (data_type column)) (lower type)))
        | None => Ok false
        end ;;
      if selected : bool then
        clause <- column_clause name properties_schema ;;
        more <- columns_to_replace columns_dict rest ;;
        Ok ((safe_column_name name, clause) :: more)
      else columns_to_replace columns_dict rest
  end.

(** [DbSync.update_columns]; [columns] is what the catalog query returns. *)
Definition update_columns (db : database) (self : DbSync) (columns : list catalog_column)
  : session unit :=
  _ <~ call db (Execute get_table_columns_sql [lower (stream self); lower (schema_name self)]) ;;
  let columns_dict := dict_of_items (map (fun c => (lower (column_name c), c)) columns) in
  to_add <~ lift (columns_to_add columns_dict (self_flatten_schema self)) ;;
  _ <~ for_each (fun column => add_column db self column (stream self)) to_add ;;
  to_replace <~ lift (columns_to_replace columns_dict (self_flatten_schema self)) ;;
  for_each (fun entry : str * str =>
              _ <~ drop_column db self entry.1 (stream self) ;;
              add_column db self entry.2 (stream self))
           to_replace.

(** ** Descriptions to compare the code with *)

(** The storage types of the type mapper. *)
Definition storage_types : list str :=
  strs ["jsonb"; "timestamp without time zone"; "numeric"; "character varying";
        "bigint"; "boolean"].

(** The values [name in type] is defined on. *)
Definition iterable (v : json) : bool :=
  match v with
  | JStr _ | JArr _ | JObj _ => true
  | _ => false
  end.

Definition type_includes (name : str) (type : json) : bool :=
  match type with
  | JStr s => is_substring name s
  | JArr elements => existsb (is_JStr name) elements
  | JObj entries => has_key name entries
  | _ => false
  end.

Definition format_is_date_time (descriptor : dict) : bool :=
  match dict_get "format" descriptor with
  | Some format => is_JStr "date-time" format
  | None => false
  end.

(** The table of the type mapper, its rows in order. *)
Definition mapped_type (descriptor : dict) (type : json) : str :=
  if type_includes "object" type || type_includes "array" type then "jsonb"
  else if format_is_date_time descriptor then "timestamp without time zone"
  else if type_includes "number" type then "numeric"
  else if type_includes "integer" type && type_includes "string" type then "character varying"
  else if type_includes "integer" type then "bigint"
  else if type_includes "boolean" type then "boolean"
  else "character varying".



(** The leaves of a record with their flat keys, in the order in which
    [flatten_record] meets them, every one kept. *)
Fixpoint mapping_leaves (d : json) (parent_key : list str) (sep : str) {struct d} : items :=
  match d with
  | JObj entries =>
      (fix loop (entries : dict) : items :=
         match entries with
         | [] => []
         | (k, v) :: rest =>
             match v with
             | JObj _ => mapping_leaves v (parent_key ++ [k]) sep
             | _ => [(flatten_key k parent_key sep, record_value v)]
             end ++ loop rest
         end) entries
  | _ => []
  end.

Definition record_leaves (d : dict) (parent_key : list str) (sep : str) : items :=
  mapping_leaves (JObj d) parent_key sep.

(** What table synchronisation does to a column of the live table. *)
Inductive alteration : Type :=
| AddColumn (name type : str)
| DropColumn (name : str).

Definition altered_column (a : alteration) : str :=
  match a with
  | AddColumn name _ => name
  | DropColumn name => name
  end.

(** The statement that carries out an alteration. *)
Definition alteration_call (self : DbSync) (a : alteration) : db_call :=
  match a with
  | AddColumn name type =>
      Execute (cat ["ALTER TABLE " : str; table_name self (stream self) false;
                    " ADD COLUMN " : str; safe_column_name name; " " : str; type]) []
  | DropColumn name =>
      Execute (cat ["ALTER TABLE " : str; table_name self (stream self) false;
                    " DROP COLUMN " : str; safe_column_name name]) []
  end.

(** The live catalog by lower-cased column name. *)
Definition catalog (columns : list catalog_column) : list (str * catalog_column) :=
  dict_of_items (map (fun c => (lower (column_name c), c)) columns).

(** The alterations a schema column of mapped type [type] calls for: added
    when the catalog does not have it, dropped and added again when the
    catalog records another type, left alone otherwise. *)
Definition alterations_for (columns : list catalog_column) (name type : str)
  : list alteration :=
  match dict_get (lower name) (catalog columns) with
  | None => [AddColumn name type]
  | Some column =>
      if str_eqb (lower (data_type column)) (lower type) then []
      else [DropColumn name; AddColumn name type]
  end.


(** No underscore of [s] stands right before an upper-case letter. *)
Fixpoint no_underscore_upper (s : str) : bool :=
  match s with
  | u :: t =>
      match t with
      | c :: _ => negb (is_char underscore_char u && is_upper c)
      | [] => true
      end && no_underscore_upper t
  | [] => true
  end.


(** ** Predicates and sample values of the properties *)

(** A string is [settled] when it has no upper-case letter and no hyphen:
    the shape of everything [inflect_column_name] returns. *)
Definition settled_char (c : ascii) : Prop :=
  is_upper c = false /\ is_char hyphen_char c = false.
Definition settled (s : str) : Prop := Forall settled_char s.

Definition hyphen_free (s : str) : Prop :=
  Forall (fun c => is_char hyphen_char c = false) s.

Definition upper_free (s : str) : Prop := Forall (fun c => is_upper c = false) s.

(** The order of the keys of a flattened schema. *)
Definition str_lt (a b : str) : Prop := str_ltb a b = true.

Definition key_le {V} (x y : str * V) : Prop := str_leb x.1 y.1 = true.
Definition key_neq {V} (x y : str * V) : Prop := x.1 <> y.1.
Definition key_lt {V} (x y : str * V) : Prop := str_lt x.1 y.1.


(** The alterations that the two loops of [update_columns] make for one
    schema column, and for all of them. *)
Definition adds_of (columns : list catalog_column) (kv : str * json) : list alteration :=
  match dict_get (lower kv.1) (catalog columns), column_type kv.2 with
  | None, Ok type => [AddColumn kv.1 type]
  | _, _ => []
  end.

Definition replaces_of (columns : list catalog_column) (kv : str * json) : list alteration :=
  match dict_get (lower kv.1) (catalog columns), column_type kv.2 with
  | Some column, Ok type =>
      if str_eqb (lower (data_type column)) (lower type) then []
      else [DropColumn kv.1; AddColumn kv.1 type]
  | _, _ => []
  end.

Definition planned (columns : list catalog_column) (flattened : dict) : list alteration :=
  flat_map (adds_of columns) flattened ++ flat_map (replaces_of columns) flattened.

Definition typed (kv : str * json) : Prop := exists type, column_type kv.2 = Ok type.

(** Every mapping that [flatten_schema] returns for [d] has typed columns. *)
Definition flattens_to_typed (sep : str) (d : json) : Prop :=
  forall parent_key m, (flatten_schema d parent_key sep).2 = Ok m -> Forall typed m.

Definition add_call (self : DbSync) (column : str) : db_call :=
  Execute (cat ["ALTER TABLE " : str; table_name self (stream self) false;
                " ADD COLUMN " : str; column]) [].

Definition drop_call (self : DbSync) (name : str) : db_call :=
  Execute (cat ["ALTER TABLE " : str; table_name self (stream self) false;
                " DROP COLUMN " : str; name]) [].

Definition alters (name : str) (a : alteration) : bool :=
  str_eqb (altered_column a) name.



Definition schema_with_anyOf : json :=
  JObj [("properties" : str,
         JObj [("amount" : str,
                JObj [("anyOf" : str,
                       JArr [NULL_TYPE; JObj [("type" : str, JStr "number")]])])])].

Definition schema_without_anyOf : json :=
  JObj [("properties" : str,
         JObj [("id" : str, JObj [("type" : str, JStr "integer")]);
               ("address" : str,
                JObj [("type" : str, JStr "object");
                      ("properties" : str,
                       JObj [("zipCode" : str,
                              JObj [("type" : str, JArr [JStr "null"; JStr "string"])])])])])].

Definition schema_of_property (k : str) (v : json) : json :=
  JObj [("properties" : str, JObj [(k, v)])].

Definition doubled_null_branches : list json :=
  [NULL_TYPE; NULL_TYPE; JObj [("type" : str, JStr "string")]].

Definition listed_type_branches : list json :=
  [NULL_TYPE; JObj [("type" : str, JArr [JStr "integer"; JStr "string"])]].

Definition sample_sync : DbSync :=
  {| schema_name := "public";
     stream := "users";
     key_properties := strs ["id"];
     self_flatten_schema :=
       [("id" : str, JObj [("type" : str, JStr "integer")]);
        ("name" : str, JObj [("type" : str, JArr [JStr "null"; JStr "string"])])];
     rejected_count := 0 |}.


Definition sample_catalog : list catalog_column :=
  [{| column_name := "id"; data_type := "character varying" |};
   {| column_name := "legacy"; data_type := "bigint" |}].

Definition accepting_db : database := fun _ _ => None.

(** ** Predicates of the further properties *)


(** A string without its underscores. *)
Definition without_underscores (s : str) : str :=
  List.filter (fun c => negb (is_char underscore_char c)) s.

(** A substitution that only inserts underscores into what it matches. *)
Definition inserting (m : matcher) : Prop :=
  forall b t rep n,
    m b t = Some (rep, n) ->
    1 <= n /\ without_underscores rep = without_underscores (take n t).

(** Every mapping that [flatten_schema] returns for [d] has keys in [Qk]. *)
Definition flattens_to_keys (Qk : str -> Prop) (sep : str) (d : json) : Prop :=
  forall parent_key m, (flatten_schema d parent_key sep).2 = Ok m -> Forall Qk (keys m).

(** Flattening the tree that [flatten_schema] leaves behind gives the same
    tree and the same result again. *)
Definition settles (sep : str) (d : json) : Prop :=
  forall parent_key,
    flatten_schema (flatten_schema d parent_key sep).1 parent_key sep
    = flatten_schema d parent_key sep.

(** ** The rest of the synchroniser *)

Definition get_tables_sql : str :=
  "SELECT table_name FROM information_schema.tables WHERE table_schema = %s".

(** [DbSync.sync_table]; [tables] holds the names that [get_tables] returns
    and [columns] the rows that [get_table_columns] returns. *)
Definition sync_table (db : database) (self : DbSync) (tables : list str)
    (columns : list catalog_column) : session unit :=
  _ <~ call db (Execute get_tables_sql [schema_name self]) ;;
  let found_tables :=
    List.filter (fun table => str_eqb (lower table) (lower (stream self))) tables in
  if length found_tables =? 0 then
    query <~ lift (create_table_query self false) ;;
    call db (Execute query [])
  else update_columns db self columns.


(** The catalog of a table that has the columns of a flattened schema, each
    with its mapped type. *)
Definition created_columns (flattened : dict) : list catalog_column :=
  flat_map
    (fun kv : str * json =>
       match column_type kv.2 with
       | Ok type => [{| column_name := kv.1; data_type := type |}]
       | Raise _ => []
       end)
    flattened.

(** ** Records as lines and as keys *)

(** The values of a flattened record: neither lists nor mappings. *)
Definition is_scalar (v : json) : bool :=
  match v with
  | JArr _ | JObj _ => false
  | _ => true
  end.

(** [str(v)] for a value of a flattened record (the last case is never
    reached: such a value is not a list and not a mapping). *)
Definition py_str (v : json) : str :=
  match v with
  | JNull => "None"
  | JBool true => "True"
  | JBool false => "False"
  | JNum n => NilZero.string_of_int (Z.to_int n)
  | JStr s => s
  | _ => []
  end.

(** [flatten[name]] *)
Definition flat_item (flatten : dict) (name : str) : result json :=
  match dict_get name flatten with
  | Some v => Ok v
  | None => Raise KeyError
  end.

(** [DbSync.record_primary_key_string]; Python's [None] is [None]. *)
Definition record_primary_key_string (self : DbSync) (record : dict) : result (option str) :=
  if length (key_properties self) =? 0 then Ok None
  else
    let flatten := flatten_record record [] default_sep in
    key_props <- map_result
                   (fun p => v <- flat_item flatten (inflect_column_name p) ;; Ok (py_str v))
                   (key_properties self) ;;
    Ok (Some (join "," key_props)).

(** [DbSync.record_to_csv_line] *)
Definition csv_field (flatten : dict) (name : str) : str :=
  match dict_get name flatten with
  | Some JNull => []
  | Some v => json_dumps v
  | None => []
  end.

Definition record_to_csv_line (self : DbSync) (record : dict) : str :=
  let flatten := flatten_record record [] default_sep in
  join "," (map (csv_field flatten) (keys (self_flatten_schema self))).

(** The characters from the space to the tilde. *)
Definition printable (c : ascii) : Prop := (32 <=? code c) && (code c <=? 126) = true.

(** The names of the types of a schema that the type mapper tells apart. *)
Definition json_type_names : list str :=
  strs ["string"; "number"; "integer"; "boolean"; "object"; "array"].

(** A key that [flatten_key] makes with the separator [sep]. *)
Definition made_by_flatten_key (sep : str) (key : str) : Prop :=
  exists k path, key = flatten_key k path sep.

(** * Properties *)

(** ** Characters *)

Ltac each_char c :=
  destruct c as [b0 b1 b2 b3 b4 b5 b6 b7];
  destruct b0, b1, b2, b3, b4, b5, b6, b7.

Lemma lower_char_not_upper c : is_upper (lower_char c) = false.
Proof. each_char c; reflexivity. Qed.

Lemma lower_char_keeps c : is_upper c = false -> lower_char c = c.
Proof. unfold lower_char. now intros ->. Qed.

Lemma lower_char_hyphen c : is_char hyphen_char (lower_char c) = is_char hyphen_char c.
Proof. each_char c; reflexivity. Qed.

Lemma upper_char_hyphen c : is_char hyphen_char (upper_char c) = is_char hyphen_char c.
Proof. each_char c; reflexivity. Qed.

Lemma is_char_eq x c : is_char x c = true <-> x = c.
Proof. apply Ascii.eqb_eq. Qed.

(** ** Substitution *)

Lemma backtrack_none {A} n (attempt : nat -> option A) :
  (forall k, attempt k = None) -> backtrack n attempt = None.
Proof. intros H. induction n as [|n IH]; simpl; [done|]. now rewrite H. Qed.

Lemma re_sub_from_id m b s :
  (forall b' n, m b' (drop n s) = None) -> re_sub_from m b 0 s = s.
Proof.
  revert b. induction s as [|c t IH]; intros b H; simpl; [done|].
  pose proof (H b 0) as H0. simpl in H0. rewrite H0. f_equal. apply IH. intros b' n. apply (H b' (S n)).
Qed.

Lemma re_sub_id m s :
  (forall b n, m b (drop n s) = None) -> re_sub m s = s.
Proof. apply re_sub_from_id. Qed.

Lemma re_sub_from_Forall (P Q : ascii -> Prop) m :
  (forall c, Q c -> P c) ->
  (forall b t rep n, Forall Q t -> m b t = Some (rep, n) -> Forall P rep) ->
  forall s b k, Forall Q s -> Forall P (re_sub_from m b k s).
Proof.
  intros HQP Hm. induction s as [|c t IH]; intros b k Hs; simpl; [constructor|].
  pose proof (Forall_inv_tail Hs) as Ht.
  destruct k as [|k]; [|by apply IH].
  destruct (m b (c :: t)) as [[rep n]|] eqn:E.
  - apply Forall_app. split; [exact (Hm b (c :: t) rep n Hs E)|by apply IH].
  - constructor; [apply HQP; by inversion Hs|by apply IH].
Qed.

Lemma re_sub_Forall (P Q : ascii -> Prop) m s :
  (forall c, Q c -> P c) ->
  (forall b t rep n, Forall Q t -> m b t = Some (rep, n) -> Forall P rep) ->
  Forall Q s -> Forall P (re_sub m s).
Proof. intros. by eapply re_sub_from_Forall. Qed.

(** ** The patterns of [inflect_column_name] on text they do not touch *)

Lemma no_underscore_upper_tail c s :
  no_underscore_upper (c :: s) = true -> no_underscore_upper s = true.
Proof. simpl. intros H. apply andb_true_iff in H. tauto. Qed.

Lemma no_underscore_upper_drop n s :
  no_underscore_upper s = true -> no_underscore_upper (drop n s) = true.
Proof.
  revert s. induction n as [|n IH]; intros [|c s] H; simpl; try done.
  apply IH. by eapply no_underscore_upper_tail.
Qed.

Lemma no_underscore_upper_head u c s :
  no_underscore_upper (u :: c :: s) = true ->
  is_char underscore_char u && is_upper c = false.
Proof.
  simpl. intros H. apply andb_true_iff in H. destruct H as [H _].
  by apply negb_true_iff in H.
Qed.

Lemma upper_free_no_underscore_upper s :
  upper_free s -> no_underscore_upper s = true.
Proof.
  induction 1 as [|c s Hc Hs IH]; simpl; [done|].
  rewrite IH, andb_true_r. destruct s as [|d s]; [done|].
  inversion Hs as [|? ? Hd _]; subst. by rewrite Hd, andb_false_r.
Qed.

Lemma upper_free_run s : upper_free s -> upper_run s = 0.
Proof. destruct 1 as [|c s Hc _]; simpl; [done|]. by rewrite Hc. Qed.

Lemma acronym_underscore_none b s :
  no_underscore_upper s = true -> acronym_underscore b s = None.
Proof.
  intros H. unfold acronym_underscore. apply backtrack_none. intros k.
  pose proof (no_underscore_upper_drop k s H) as Hk.
  destruct (drop k s) as [|u [|c1 [|c2 r]]]; try done.
  by rewrite (no_underscore_upper_head _ _ _ Hk).
Qed.

Lemma camel_underscore_none b s :
  no_underscore_upper s = true -> camel_underscore b s = None.
Proof.
  intros H. destruct s as [|c0 [|u [|c1 r]]]; try done. unfold camel_underscore.
  apply no_underscore_upper_tail, no_underscore_upper_head in H.
  by rewrite <- andb_assoc, H, andb_false_r.
Qed.

Lemma acronym_boundary_none b s : upper_free s -> acronym_boundary b s = None.
Proof. intros H. unfold acronym_boundary. by rewrite (upper_free_run s H). Qed.

Lemma camel_boundary_none b s : upper_free s -> camel_boundary b s = None.
Proof.
  intros H. destruct s as [|c0 [|c1 r]]; try done. unfold camel_boundary.
  inversion H as [|? ? _ H1]; subst. inversion H1 as [|? ? Hc _]; subst.
  by rewrite Hc, andb_false_r.
Qed.

Lemma underscore_passes_id s :
  no_underscore_upper s = true ->
  re_sub camel_underscore (re_sub acronym_underscore s) = s.
Proof.
  intros H.
  assert (re_sub acronym_underscore s = s) as ->.
  { apply re_sub_id. intros b n. by apply acronym_underscore_none, no_underscore_upper_drop. }
  apply re_sub_id. intros b n. by apply camel_underscore_none, no_underscore_upper_drop.
Qed.

Lemma boundary_passes_id s :
  upper_free s -> re_sub camel_boundary (re_sub acronym_boundary s) = s.
Proof.
  intros H.
  assert (re_sub acronym_boundary s = s) as ->.
  { apply re_sub_id. intros b n. by apply acronym_boundary_none, Forall_drop. }
  apply re_sub_id. intros b n. by apply camel_boundary_none, Forall_drop.
Qed.

Lemma replace_hyphen_id s :
  hyphen_free s -> replace_char hyphen_char underscore_char s = s.
Proof.
  unfold replace_char. induction 1 as [|c s Hc _ IH]; cbn [map]; [done|].
  by rewrite Hc, IH.
Qed.

Lemma lower_id s : upper_free s -> lower s = s.
Proof.
  unfold lower. induction 1 as [|c s Hc _ IH]; cbn [map]; [done|].
  by rewrite lower_char_keeps, IH.
Qed.

Lemma settled_upper_free s : settled s -> upper_free s.
Proof. intros H. eapply Forall_impl; [exact H|]. by intros c [? ?]. Qed.

Lemma settled_hyphen_free s : settled s -> hyphen_free s.
Proof. intros H. eapply Forall_impl; [exact H|]. by intros c [? ?]. Qed.

(** [inflect_column_name] leaves a settled string as it is. *)
Lemma inflect_settled_id s : settled s -> inflect_column_name s = s.
Proof.
  intros H. unfold inflect_column_name, inflection.underscore.
  pose proof (settled_upper_free s H) as Hu.
  rewrite underscore_passes_id by by apply upper_free_no_underscore_upper.
  rewrite boundary_passes_id by done.
  rewrite replace_hyphen_id by by apply settled_hyphen_free.
  by apply lower_id.
Qed.

(** Whatever [inflection.underscore] returns is settled. *)
Lemma underscore_settled s : settled (inflection.underscore s).
Proof.
  unfold inflection.underscore, lower, replace_char.
  apply Forall_map, Forall_map, Forall_forall. intros c _. split.
  - apply lower_char_not_upper.
  - rewrite lower_char_hyphen. by destruct (is_char hyphen_char c) eqn:E.
Qed.

Lemma inflect_settled s : settled (inflect_column_name s).
Proof. apply underscore_settled. Qed.

(** ** The shortening loop *)

(** After any number of rounds the list is the original one with its first
    [j] segments shortened; the loop stops either below the limit or with
    every segment shortened. *)
Lemma shorten_loop_shape fuel sep done todo :
  length todo <= fuel ->
  exists j,
    j <= length todo /\
    shorten_loop fuel sep (done ++ todo) (length done)
      = done ++ map shortened (take j todo) ++ drop j todo /\
    (length (join sep (shorten_loop fuel sep (done ++ todo) (length done))) < 63
     \/ j = length todo).
Proof.
  revert done todo. induction fuel as [|fuel IH]; intros done todo Hfuel.
  - destruct todo; simpl in Hfuel; [|lia]. exists 0. simpl. auto.
  - cbn [shorten_loop].
    destruct (63 <=? length (join sep (done ++ todo))) eqn:Hlen; cbn [andb].
    + destruct (length done <? length (done ++ todo)) eqn:Hidx.
      * apply Nat.ltb_lt in Hidx. rewrite length_app in Hidx.
        destruct todo as [|segment rest]; simpl in Hidx; [lia|].
        rewrite list_lookup_middle by done.
        rewrite insert_app_r_alt by done.
        rewrite Nat.sub_diag. cbn [insert list_insert].
        replace (done ++ shortened segment :: rest)
          with ((done ++ [shortened segment]) ++ rest) by by rewrite <- app_assoc.
        replace (S (length done)) with (length (done ++ [shortened segment]))
          by (rewrite length_app; simpl; lia).
        destruct (IH (done ++ [shortened segment]) rest) as (j & Hj & Heq & Hstop).
        { simpl in Hfuel. lia. }
        exists (S j). split; [simpl; lia|]. split.
        -- rewrite Heq. simpl. by rewrite <- app_assoc.
        -- destruct Hstop as [Hstop|Hstop]; [by left|right; simpl; lia].
      * apply Nat.ltb_ge in Hidx. rewrite length_app in Hidx.
        destruct todo; simpl in Hidx; [|lia]. exists 0. simpl. auto.
    + apply Nat.leb_gt in Hlen. exists 0. split; [lia|]. simpl. auto.
Qed.

(** The rounds counted by [fuel] are enough: from [len(inflected_key) -
    reducer_index] on, more fuel does not change what the loop returns. *)
Lemma shorten_loop_enough_fuel fuel fuel' sep inflected_key reducer_index :
  length inflected_key - reducer_index <= fuel -> fuel <= fuel' ->
  shorten_loop fuel' sep inflected_key reducer_index
  = shorten_loop fuel sep inflected_key reducer_index.
Proof.
  revert fuel' inflected_key reducer_index.
  induction fuel as [|fuel IH]; intros fuel' l idx Hfuel Hle.
  - destruct fuel' as [|fuel']; [done|]. cbn [shorten_loop].
    replace (idx <? length l) with false by (symmetry; apply Nat.ltb_ge; lia).
    by rewrite andb_false_r.
  - destruct fuel' as [|fuel']; [lia|]. cbn [shorten_loop].
    destruct ((63 <=? length (join sep l)) && (idx <? length l)); [|done].
    destruct (l !! idx) as [segment|]; [|done].
    apply IH; [rewrite length_insert|]; lia.
Qed.

Lemma flatten_key_shape k parent_key sep :
  let inflected := map inflect_column_name (parent_key ++ [k]) in
  exists j,
    flatten_key k parent_key sep
      = join sep (map shortened (take j inflected) ++ drop j inflected) /\
    (length (flatten_key k parent_key sep) < 63 \/ j = length inflected).
Proof.
  intros inflected. unfold flatten_key. fold inflected.
  destruct (shorten_loop_shape (length inflected) sep [] inflected)
    as (j & _ & Heq & Hstop); [done|].
  simpl in Heq, Hstop. exists j. by rewrite Heq in *.
Qed.

Lemma join_Forall (P : ascii -> Prop) sep parts :
  Forall P sep -> Forall (Forall P) parts -> Forall P (join sep parts).
Proof.
  intros Hsep. induction 1 as [|p rest Hp Hrest IH]; simpl; [constructor|].
  destruct rest; [done|]. apply Forall_app. split; [done|].
  apply Forall_app. by split.
Qed.

Lemma camelize_hyphen_free s : hyphen_free s -> hyphen_free (inflection.camelize s).
Proof.
  apply re_sub_Forall; [done|]. intros b t rep n Ht.
  unfold camel_hump. destruct t as [|c rest]; [done|].
  inversion Ht as [|? ? Hc Hrest]; subst.
  destruct (b && negb (is_char newline_char c)).
  - intros [= <- _]. constructor; [|constructor]. by rewrite upper_char_hyphen.
  - destruct (is_char underscore_char c); [|done].
    destruct rest as [|d ?]; [done|]. inversion Hrest as [|? ? Hd _]; subst.
    destruct (negb (is_char newline_char d)); [|done].
    intros [= <- _]. constructor; [|constructor]. by rewrite upper_char_hyphen.
Qed.

Lemma reduced_key_hyphen_free s : hyphen_free s -> hyphen_free (reduced_key s).
Proof.
  intros H. apply camelize_hyphen_free in H. revert H.
  apply re_sub_Forall; [done|]. intros b t rep n _.
  unfold lower_letter. destruct t as [|c ?]; [done|].
  destruct (is_lower c); [|done]. intros [= <- _]. constructor.
Qed.

Lemma lower_settled s : hyphen_free s -> settled (lower s).
Proof.
  intros H. unfold lower. apply Forall_map. eapply Forall_impl; [exact H|].
  intros c Hc. split; [apply lower_char_not_upper|by rewrite lower_char_hyphen].
Qed.

Lemma shortened_settled s : settled s -> settled (shortened s).
Proof.
  intros H%settled_hyphen_free. apply lower_settled.
  destruct (1 <? length (reduced_key s)).
  - by apply reduced_key_hyphen_free.
  - by apply Forall_take.
Qed.

Lemma default_sep_settled : settled default_sep.
Proof. repeat constructor. Qed.

Lemma flatten_key_settled k parent_key :
  settled (flatten_key k parent_key default_sep).
Proof.
  destruct (flatten_key_shape k parent_key default_sep) as (j & -> & _).
  apply join_Forall; [apply default_sep_settled|].
  assert (Forall settled (map inflect_column_name (parent_key ++ [k]))) as H.
  { apply Forall_map, Forall_forall. intros s _. apply inflect_settled. }
  apply Forall_app. split.
  - apply Forall_map. eapply Forall_impl; [by apply Forall_take|].
    intros s Hs. by apply shortened_settled.
  - by apply Forall_drop.
Qed.

Lemma backtrack_some {A} n (attempt : nat -> option A) r :
  backtrack n attempt = Some r -> exists k, attempt k = Some r.
Proof.
  induction n as [|n IH]; simpl; [done|].
  destruct (attempt (S n)) eqn:E; [|done]. intros [= <-]. by exists (S n).
Qed.



(** ** Identifier length (C1) *)

(** C1, as stated, fails: one segment of 64 digits has no lower-case letter
    to drop, is returned as it is, and is 64 characters long. *)
Lemma flatten_key_length_counterexample :
  ~ length (flatten_key (repeat "1"%char 64) [] default_sep) <= 63.
Proof. vm_compute. lia. Qed.

(** C1, amended: the identifier returned by [flatten_key] is shorter than 63
    characters, or else every segment of the path has been shortened and the
    identifier is the join of the shortened segments, whatever its length. *)
Theorem flatten_key_length_bound k parent_key sep :
  length (flatten_key k parent_key sep) < 63 \/
  flatten_key k parent_key sep
    = join sep (map shortened (map inflect_column_name (parent_key ++ [k]))).
Proof.
  destruct (flatten_key_shape k parent_key sep) as (j & Heq & [Hlt| ->]).
  - by left.
  - right. by rewrite Heq, firstn_all, skipn_all, app_nil_r.
Qed.

(** ** Segment normalisation (C6) *)

Example inflect_HTTPServer : inflect_column_name "HTTPServer" = "http_server".
Proof. reflexivity. Qed.




(** ** Idempotence (C8) *)

(** C8, as stated, fails: twenty-two segments [a] join to 64 characters that
    no shortening reduces; fed back as one segment, that identifier is
    shortened to its skeleton, an [a] followed by underscores. *)
Lemma flatten_key_idempotent_counterexample :
  flatten_key (flatten_key "a" (repeat ("a" : str) 21) default_sep) [] default_sep
  <> flatten_key "a" (repeat ("a" : str) 21) default_sep.
Proof. vm_compute. discriminate. Qed.

(** C8, amended: [inflect_column_name] is idempotent on every segment, and
    when the identifier of a path is shorter than 63 characters, inflecting
    that identifier again, as a path of one segment, returns it unchanged. *)
Theorem flatten_key_idempotent k parent_key :
  length (flatten_key k parent_key default_sep) < 63 ->
  inflect_column_name (inflect_column_name k) = inflect_column_name k /\
  flatten_key (flatten_key k parent_key default_sep) [] default_sep
    = flatten_key k parent_key default_sep.
Proof.
  intros Hlt. split; [apply inflect_settled_id, inflect_settled|].
  set (out := flatten_key k parent_key default_sep) in *.
  unfold flatten_key at 1. cbn [app map length shorten_loop join].
  rewrite (inflect_settled_id out) by apply flatten_key_settled.
  cbn [join]. apply Nat.leb_gt in Hlt. by rewrite Hlt.
Qed.

Lemma flatten_key_idempotent_witness :
  length (flatten_key "userId" (strs ["HomeAddress"]) default_sep) < 63 /\
  inflect_column_name (inflect_column_name "userId") = inflect_column_name "userId" /\
  flatten_key (flatten_key "userId" (strs ["HomeAddress"]) default_sep) [] default_sep
    = flatten_key "userId" (strs ["HomeAddress"]) default_sep.
Proof.
  split; [vm_compute; lia|].
  apply (flatten_key_idempotent "userId" (strs ["HomeAddress"])). vm_compute. lia.
Defined.

(** ** Type mapping (C5) *)

Lemma contains_iterable name type :
  iterable type = true -> contains name type = Ok (type_includes name type).
Proof. by destruct type. Qed.

Lemma mapped_type_enumerated descriptor type :
  In (mapped_type descriptor type) storage_types.
Proof.
  unfold mapped_type.
  repeat match goal with |- context [if ?b then _ else _] => destruct b end;
    unfold storage_types, strs; cbn [map In]; tauto.
Qed.

Lemma column_type_mapped descriptor type :
  dict_get "type" descriptor = Some type ->
  iterable type = true ->
  column_type (JObj descriptor) = Ok (mapped_type descriptor type).
Proof.
  intros Htype Hiter.
  unfold column_type, getitem. rewrite Htype. cbn [bind contains].
  unfold or_else, and_then. rewrite !(contains_iterable _ type) by done.
  unfold mapped_type, format_is_date_time, has_key.
  destruct (dict_get "format" descriptor) as [format|]; cbn [bind];
    destruct (type_includes "object" type), (type_includes "array" type);
    cbn [bind orb]; try done.
  all: try (destruct (is_JStr "date-time" format); [done|]).
  all: cbn [is_JStr].
  all: destruct (type_includes "number" type); cbn [bind]; [done|].
  all: destruct (type_includes "integer" type); cbn [bind andb];
    destruct (type_includes "string" type); cbn [bind]; try done.
  all: by destruct (type_includes "boolean" type).
Qed.

(** C5, as stated, fails: a descriptor without a ['type'] entry is not
    mapped to text, [column_type] raises [KeyError] on it. *)
Lemma column_type_missing_type_counterexample :
  column_type (JObj [("format" : str, JStr "date-time")]) = Raise KeyError /\
  ~ exists type, In type storage_types /\
      column_type (JObj [("format" : str, JStr "date-time")]) = Ok type.
Proof. split; [reflexivity|]. intros (type & _ & H). discriminate H. Qed.

(** C5, amended: for every descriptor whose ['type'] entry is a string, a
    list or a dictionary, [column_type] returns one of the six storage types,
    the one the table gives with its rows tried in order, and type names that
    no row knows fall back to [character varying]; without a ['type'] entry
    the call raises [KeyError]. *)
Theorem column_type_table descriptor type :
  dict_get "type" descriptor = Some type ->
  iterable type = true ->
  column_type (JObj descriptor) = Ok (mapped_type descriptor type) /\
  In (mapped_type descriptor type) storage_types.
Proof.
  intros Htype Hiter. split; [by apply column_type_mapped|apply mapped_type_enumerated].
Qed.

Lemma column_type_table_witness :
  dict_get "type" [("type" : str, JArr [JStr "null"; JStr "integer"])]
    = Some (JArr [JStr "null"; JStr "integer"]) /\
  iterable (JArr [JStr "null"; JStr "integer"]) = true /\
  column_type (JObj [("type" : str, JArr [JStr "null"; JStr "integer"])])
    = Ok (mapped_type [("type" : str, JArr [JStr "null"; JStr "integer"])]
            (JArr [JStr "null"; JStr "integer"])) /\
  In (mapped_type [("type" : str, JArr [JStr "null"; JStr "integer"])]
        (JArr [JStr "null"; JStr "integer"])) storage_types.
Proof.
  split; [reflexivity|]. split; [reflexivity|].
  apply (column_type_table [("type" : str, JArr [JStr "null"; JStr "integer"])]
           (JArr [JStr "null"; JStr "integer"])); reflexivity.
Defined.

(** ** Order on strings *)

Lemma code_inj x y : code x = code y -> x = y.
Proof.
  unfold code. intros H.
  by rewrite <- (ascii_nat_embedding x), <- (ascii_nat_embedding y), H.
Qed.

Lemma str_eqb_eq a b : str_eqb a b = true <-> a = b.
Proof.
  revert b. induction a as [|x a IH]; intros [|y b]; simpl; try done.
  rewrite andb_true_iff, IH, is_char_eq. split; [by intros [-> ->]|by intros [= -> ->]].
Qed.

Lemma str_eqb_refl a : str_eqb a a = true.
Proof. by apply str_eqb_eq. Qed.

Lemma str_eqb_neq a b : str_eqb a b = false <-> a <> b.
Proof.
  split.
  - intros H Heq. apply str_eqb_eq in Heq. congruence.
  - intros H. destruct (str_eqb a b) eqn:E; [|done]. by apply str_eqb_eq in E.
Qed.

Lemma str_ltb_irrefl a : str_ltb a a = false.
Proof. induction a as [|x a IH]; simpl; [done|]. by rewrite Nat.ltb_irrefl. Qed.

Lemma str_lt_trans a b c : str_lt a b -> str_lt b c -> str_lt a c.
Proof.
  unfold str_lt. revert b c.
  induction a as [|x a IH]; intros [|y b] [|z c]; simpl; try done.
  destruct (code x <? code y) eqn:Exy, (code y <? code z) eqn:Eyz,
    (code y <? code x) eqn:Eyx, (code z <? code y) eqn:Ezy,
    (code x <? code z) eqn:Exz, (code z <? code x) eqn:Ezx;
    repeat match goal with
    | H : (_ <? _) = true |- _ => apply Nat.ltb_lt in H
    | H : (_ <? _) = false |- _ => apply Nat.ltb_ge in H
    end; try done; try lia.
  apply IH.
Qed.

(** Two strings of which neither is below the other are equal. *)
Lemma str_ltb_total a b : str_ltb a b = false -> str_ltb b a = false -> a = b.
Proof.
  revert b. induction a as [|x a IH]; intros [|y b]; simpl; try done.
  destruct (code x <? code y) eqn:Exy; [done|].
  destruct (code y <? code x) eqn:Eyx; [done|].
  apply Nat.ltb_ge in Exy, Eyx. intros H1 H2. f_equal.
  - apply code_inj. lia.
  - by apply IH.
Qed.

Lemma str_ltb_asym a b : str_ltb a b = true -> str_ltb b a = false.
Proof.
  intros H. destruct (str_ltb b a) eqn:E; [|done].
  pose proof (str_lt_trans a b a H E) as Haa. unfold str_lt in Haa.
  by rewrite str_ltb_irrefl in Haa.
Qed.

Lemma str_leb_total a b : str_leb a b = false -> str_leb b a = true.
Proof.
  unfold str_leb. intros H%negb_false_iff. by rewrite (str_ltb_asym _ _ H).
Qed.

Lemma str_leb_neq_lt a b : str_leb a b = true -> a <> b -> str_lt a b.
Proof.
  unfold str_leb, str_lt. intros H%negb_true_iff Hne.
  destruct (str_ltb a b) eqn:E; [done|]. by destruct Hne; apply str_ltb_total.
Qed.

(** ** Sorting and the duplicate check *)

Section sorting.
Context {V : Type}.
Implicit Types (x : str * V) (l : list (str * V)).

Lemma insert_by_key_perm x l : Permutation (insert_by_key x l) (x :: l).
Proof.
  induction l as [|y l IH]; simpl; [done|].
  destruct (str_leb x.1 y.1); [done|]. rewrite IH. apply perm_swap.
Qed.

Lemma sorted_by_key_perm l : Permutation (sorted_by_key l) l.
Proof.
  induction l as [|x l IH]; simpl; [done|].
  by rewrite insert_by_key_perm, IH.
Qed.

Lemma insert_by_key_sorted x l :
  Sorted key_le l -> Sorted key_le (insert_by_key x l).
Proof.
  induction 1 as [|y l Hl IH Hhd]; simpl; [by repeat constructor|].
  destruct (str_leb x.1 y.1) eqn:E.
  - constructor; [by constructor|by constructor].
  - constructor; [done|].
    destruct l as [|z l]; simpl.
    + constructor. by apply str_leb_total.
    + destruct (str_leb x.1 z.1).
      * constructor. by apply str_leb_total.
      * constructor. by inversion Hhd.
Qed.

Lemma sorted_by_key_sorted l : Sorted key_le (sorted_by_key l).
Proof.
  induction l as [|x l IH]; simpl; [constructor|by apply insert_by_key_sorted].
Qed.

Lemma Sorted_both (R1 R2 : relation (str * V)) l :
  Sorted R1 l -> Sorted R2 l -> Sorted (fun x y => R1 x y /\ R2 x y) l.
Proof.
  induction 1 as [|x l Hl IH Hhd]; intros H2; [constructor|].
  inversion H2 as [|? ? Hl2 Hhd2]; subst. constructor; [by apply IH|].
  destruct Hhd; inversion Hhd2; subst; by constructor.
Qed.

Lemma Sorted_key_lt l : Sorted key_le l -> Sorted key_neq l -> Sorted key_lt l.
Proof.
  intros H1 H2. pose proof (Sorted_both _ _ _ H1 H2) as H.
  clear H1 H2. induction H as [|x l Hl IH Hhd]; constructor; [done|].
  destruct Hhd as [|y l' [Hle Hne]]; constructor. by apply str_leb_neq_lt.
Qed.

Lemma key_lt_strongly_sorted l : Sorted key_lt l -> StronglySorted str_lt (keys l).
Proof.
  intros H. apply Sorted_StronglySorted in H.
  - induction H as [|x l Hl IH Hall]; simpl; constructor; [done|].
    unfold keys. apply Forall_map. eapply Forall_impl; [exact Hall|]. by intros y Hy.
  - intros x y z. apply str_lt_trans.
Qed.

Lemma strongly_sorted_NoDup (ks : list str) : StronglySorted str_lt ks -> NoDup ks.
Proof.
  induction 1 as [|k ks Hks IH Hall]; constructor; [|done].
  intros Hin. rewrite Forall_forall in Hall. specialize (Hall k Hin).
  unfold str_lt in Hall. by rewrite str_ltb_irrefl in Hall.
Qed.

Lemma NoDup_key_neq l : NoDup (keys l) -> Sorted key_neq l.
Proof.
  induction l as [|x l IH]; simpl; intros H; [constructor|].
  apply NoDup_cons in H as [Hx Hl]. constructor; [by apply IH|].
  destruct l as [|y l]; constructor. intros Heq. apply Hx. simpl.
  rewrite Heq. by left.
Qed.

Lemma groupby_head l k g groups :
  groupby l = (k, g) :: groups ->
  1 <= length g /\ exists v l', l = (k, v) :: l'.
Proof.
  destruct l as [|[k0 v0] l]; simpl; [done|].
  destruct (groupby l) as [|[k' g'] groups'].
  - intros [= <- <- <-]. split; [simpl; lia|]. by eexists _, _.
  - destruct (str_eqb k0 k'); intros [= <- <- <-]; (split; [simpl; lia|]);
      by eexists _, _.
Qed.

Lemma groupby_nil l : groupby l = [] -> l = [].
Proof.
  destruct l as [|[k0 v0] l]; simpl; [done|].
  destruct (groupby l) as [|[k' g'] groups']; [done|]. by destruct (str_eqb k0 k').
Qed.

Lemma check_groups_cons (kg : str * list (str * V)) groups :
  check_groups (kg :: groups)
  = if 1 <? length kg.2 then Raise (ValueError (duplicate_message kg.1))
    else ys <- check_groups groups ;; Ok (tt :: ys).
Proof. unfold check_groups. simpl. by destruct (1 <? length kg.2). Qed.

Lemma check_groups_spec l :
  match check_groups (groupby l) with
  | Ok _ => Sorted key_neq l
  | Raise e => ~ Sorted key_neq l /\ exists k, e = ValueError (duplicate_message k)
  end.
Proof.
  induction l as [|[k v] l IH]; [constructor|].
  cbn [groupby]. destruct (groupby l) as [|[k' g] groups] eqn:Eg.
  - apply groupby_nil in Eg as ->. simpl. by repeat constructor.
  - destruct (groupby_head _ _ _ _ Eg) as (Hlen & v' & l' & ->).
    destruct (str_eqb k k') eqn:Ek; rewrite check_groups_cons; cbn [fst snd length].
    + apply str_eqb_eq in Ek as <-.
      replace (1 <? S (length g)) with true by (symmetry; apply Nat.ltb_lt; lia).
      split; [|by eexists].
      intros H. inversion H as [|? ? _ Hhd]; subst. inversion Hhd as [|? ? Hne]; subst.
      by apply Hne.
    + apply str_eqb_neq in Ek. change (1 <? 1) with false. cbv iota.
      destruct (check_groups ((k', g) :: groups)) as [u|e]; cbn [bind].
      * constructor; [done|by constructor].
      * destruct IH as [Hns Hk]. split; [|done].
        intros H. apply Hns. by inversion H.
Qed.
End sorting.

(** ** Dictionaries *)

Section dictionaries.
Context {V : Type}.
Implicit Types (d items : list (str * V)) (k : str) (v : V).

Lemma dict_get_set k k' v d :
  dict_get k (dict_set k' v d) = if str_eqb k k' then Some v else dict_get k d.
Proof.
  induction d as [|[k0 v0] d IH]; simpl; [done|].
  destruct (str_eqb k' k0) eqn:E0; simpl.
  - apply str_eqb_eq in E0 as ->. by destruct (str_eqb k k0).
  - rewrite IH. destruct (str_eqb k k0) eqn:E1; [|done].
    apply str_eqb_eq in E1 as ->. destruct (str_eqb k0 k') eqn:E2; [|done].
    apply str_eqb_eq in E2 as ->. by rewrite str_eqb_refl in E0.
Qed.

Lemma dict_get_app k d1 d2 :
  dict_get k (d1 ++ d2)
  = match dict_get k d1 with Some v => Some v | None => dict_get k d2 end.
Proof.
  induction d1 as [|[k0 v0] d1 IH]; simpl; [done|]. by destruct (str_eqb k k0).
Qed.

Lemma dict_get_None k d : dict_get k d = None <-> k ∉ keys d.
Proof.
  induction d as [|[k0 v0] d IH]; simpl.
  - split; [intros _; apply not_elem_of_nil|done].
  - rewrite not_elem_of_cons, <- IH. destruct (str_eqb k k0) eqn:E.
    + apply str_eqb_eq in E. split; [done|]. by intros [? _].
    + apply str_eqb_neq in E. tauto.
Qed.

Lemma dict_get_Some_elem k v d : dict_get k d = Some v -> (k, v) ∈ d.
Proof.
  induction d as [|[k0 v0] d IH]; simpl; [done|].
  destruct (str_eqb k k0) eqn:E.
  - apply str_eqb_eq in E as ->. intros [= ->]. by left.
  - intros H. right. by apply IH.
Qed.

Lemma dict_get_NoDup k v d : NoDup (keys d) -> (k, v) ∈ d -> dict_get k d = Some v.
Proof.
  induction d as [|[k0 v0] d IH]; simpl; intros Hnd Hin.
  - by apply elem_of_nil in Hin.
  - apply NoDup_cons in Hnd as [Hk0 Hnd].
    apply elem_of_cons in Hin as [[= <- <-]|Hin]; [by rewrite str_eqb_refl|].
    destruct (str_eqb k k0) eqn:E; [|by apply IH].
    apply str_eqb_eq in E as ->. destruct Hk0.
    apply list_elem_of_fmap. by exists (k0, v).
Qed.

Lemma dict_set_fresh k v d : k ∉ keys d -> dict_set k v d = d ++ [(k, v)].
Proof.
  induction d as [|[k0 v0] d IH]; simpl; [done|].
  intros [Hne Hd]%not_elem_of_cons.
  apply str_eqb_neq in Hne as ->. by rewrite IH.
Qed.

Lemma keys_dict_set k v d :
  keys (dict_set k v d) = if has_key k d then keys d else keys d ++ [k].
Proof.
  unfold has_key. induction d as [|[k0 v0] d IH]; simpl; [done|].
  destruct (str_eqb k k0); simpl; [done|]. rewrite IH.
  by destruct (dict_get k d).
Qed.

Lemma dict_set_NoDup k v d : NoDup (keys d) -> NoDup (keys (dict_set k v d)).
Proof.
  intros H. rewrite keys_dict_set. unfold has_key.
  destruct (dict_get k d) eqn:E; [done|].
  apply dict_get_None in E. apply NoDup_app. split; [done|]. split.
  - intros x Hx Hk. apply list_elem_of_singleton in Hk as ->. done.
  - apply NoDup_singleton.
Qed.

Lemma fold_dict_NoDup items d :
  NoDup (keys d) -> NoDup (keys (fold_left dict_update items d)).
Proof.
  revert d. induction items as [|[k v] items IH]; intros d Hd; simpl; [done|].
  by apply IH, dict_set_NoDup.
Qed.

Lemma fold_dict_get k items d :
  dict_get k (fold_left dict_update items d)
  = match dict_get k (rev items) with
    | Some v => Some v
    | None => dict_get k d
    end.
Proof.
  revert d. induction items as [|[k0 v0] items IH]; intros d; simpl; [done|].
  rewrite IH, dict_get_app. unfold dict_update. rewrite dict_get_set. simpl.
  by destruct (dict_get k (rev items)), (str_eqb k k0).
Qed.

Lemma fold_dict_fresh items d :
  NoDup (keys (d ++ items)) -> fold_left dict_update items d = d ++ items.
Proof.
  revert d. induction items as [|[k v] items IH]; intros d Hd; simpl.
  - by rewrite app_nil_r.
  - unfold dict_update at 2. simpl.
    replace (d ++ (k, v) :: items) with ((d ++ [(k, v)]) ++ items) in *
      by by rewrite <- app_assoc.
    rewrite dict_set_fresh; [by apply IH|].
    unfold keys in Hd. rewrite !map_app in Hd.
    apply NoDup_app in Hd as [Hd _]. apply NoDup_app in Hd as (_ & Hd & _).
    intros Hin. apply (Hd k Hin). simpl. by left.
Qed.

Lemma dict_of_items_fold items :
  dict_of_items items = fold_left dict_update items [].
Proof. reflexivity. Qed.

(** [dict(items)] has one entry per key, and holds for each key the value
    of the last pair with that key. *)
Lemma dict_of_items_NoDup items : NoDup (keys (dict_of_items items)).
Proof. rewrite dict_of_items_fold. apply fold_dict_NoDup. constructor. Qed.

Lemma dict_of_items_get k items :
  dict_get k (dict_of_items items) = dict_get k (rev items).
Proof.
  rewrite dict_of_items_fold, fold_dict_get. simpl.
  by destruct (dict_get k (rev items)).
Qed.

Lemma dict_of_items_unique items :
  NoDup (keys items) -> dict_of_items items = items.
Proof. intros H. rewrite dict_of_items_fold. by apply fold_dict_fresh. Qed.
End dictionaries.

(** Lines 89-95 of [flatten_schema] return the sorted items when their keys
    are distinct and raise the duplicate error otherwise. *)
Lemma sorted_unique_spec (collected : items) :
  match sorted_unique collected with
  | Ok m =>
      m = sorted_by_key collected /\ StronglySorted str_lt (keys m) /\
      NoDup (keys collected)
  | Raise e =>
      ~ NoDup (keys collected) /\ exists k, e = ValueError (duplicate_message k)
  end.
Proof.
  unfold sorted_unique.
  pose proof (check_groups_spec (sorted_by_key collected)) as H.
  destruct (check_groups (groupby (sorted_by_key collected))) as [u|e]; cbn [bind].
  - pose proof (Sorted_key_lt _ (sorted_by_key_sorted collected) H) as Hlt.
    apply key_lt_strongly_sorted in Hlt.
    pose proof (strongly_sorted_NoDup _ Hlt) as Hnd.
    rewrite dict_of_items_unique by done. split; [done|]. split; [done|].
    unfold keys in *. by rewrite <- (sorted_by_key_perm collected).
  - destruct H as [Hns Hk]. split; [|done]. intros Hnd. apply Hns.
    apply NoDup_key_neq. unfold keys in *. by rewrite (sorted_by_key_perm collected).
Qed.

(** ** Flattened schema: sorted, without duplicates (C2) *)

Lemma with_item_rel {A B C} (h1 : A -> C) (h2 : B -> C) k f g m1 m2 entries :
  (forall v, h1 (f v) = h2 (g v)) -> h1 m1 = h2 m2 ->
  h1 (with_item k f m1 entries) = h2 (with_item k g m2 entries).
Proof.
  intros Hv Hm. induction entries as [|[k' v] entries IH]; simpl; [done|].
  by destruct (str_eqb k k').
Qed.

(** [flatten_schema] returns what lines 89-95 make of the collected items. *)
Lemma flatten_schema_result d parent_key sep :
  (flatten_schema d parent_key sep).2
  = bind (collected_items d parent_key sep) sorted_unique.
Proof.
  destruct d as [| | | | |entries]; try reflexivity.
  cbn [flatten_schema collected_items].
  apply (with_item_rel snd (fun r => bind r sorted_unique)); [|done].
  intros [| | | | |property_list]; try reflexivity.
  by destruct (for_items _ property_list).
Qed.



(** ** Values as trees *)

Lemma with_item_get {A} k (found : json -> A) missing entries :
  with_item k found missing entries
  = match dict_get k entries with
    | Some v => found v
    | None => missing
    end.
Proof.
  induction entries as [|[k' v] entries IH]; simpl; [done|].
  by destruct (str_eqb k k').
Qed.

Lemma dict_set_same {V} k (v : V) d : dict_get k d = Some v -> dict_set k v d = d.
Proof.
  induction d as [|[k' v'] d IH]; simpl; [done|].
  destruct (str_eqb k k'); [by intros [= ->]|]. intros H. by rewrite IH.
Qed.

Lemma first_non_null_lookup branches i property :
  first_non_null branches = Some (i, property) -> branches !! i = Some property.
Proof.
  revert i. induction branches as [|x branches IH]; intros i; simpl; [done|].
  destruct (is_NULL_TYPE x).
  - destruct (first_non_null branches) as [[j y]|]; [|done].
    intros [= <- <-]. by apply IH.
  - by intros [= <- <-].
Qed.


(** ** The input tree of [flatten_schema] (C9) *)









(** ** Nullable unions (C4) *)

(** C4, as stated, fails twice.  A branch list that holds the null marker
    and a single other branch is rejected when it has more than two entries;
    and an accepted branch whose type is already a list is emitted with that
    list, which is not the pair of null and the type. *)
Lemma any_of_counterexample :
  ((flatten_schema
      (schema_of_property "p" (JObj [("anyOf" : str, JArr doubled_null_branches)]))
      [] default_sep).2
   = Raise (ValueError "Unsupported column type anyOf: p") /\
   existsb is_NULL_TYPE doubled_null_branches = true /\
   length (List.filter (fun x => negb (is_NULL_TYPE x)) doubled_null_branches) = 1) /\
  ((flatten_schema
      (schema_of_property "p" (JObj [("anyOf" : str, JArr listed_type_branches)]))
      [] default_sep).2
   = Ok [("p" : str, JObj [("type" : str, JArr [JStr "integer"; JStr "string"])])] /\
   JArr [JStr "integer"; JStr "string"]
   <> JArr [JStr "null"; JArr [JStr "integer"; JStr "string"]]).
Proof. repeat split; try reflexivity. discriminate. Qed.

(** C4, amended: for a property node without a ['type'] entry, with an
    ['anyOf'] entry, and whose first entry holds the list of branches, the
    loop body of [flatten_schema] raises [ValueError] exactly when the null
    marker is not in the list or the list has more than two entries; when it
    accepts the node, the leaf it emits is the first branch that is not the
    null marker, with its type replaced by the pair of null and that type
    unless the type is already a list, which is then left as it is. *)
Theorem any_of_node recurse parent_key sep k first_key branches others :
  dict_get "type" ((first_key, JArr branches) :: others) = None ->
  has_key "anyOf" ((first_key, JArr branches) :: others) = true ->
  ((exists message,
      (property_items recurse parent_key sep k
         (JObj ((first_key, JArr branches) :: others))).2
      = Raise (ValueError message))
   <-> (existsb is_NULL_TYPE branches = false \/ 2 < length branches)) /\
  (forall leaves,
     (property_items recurse parent_key sep k
        (JObj ((first_key, JArr branches) :: others))).2 = Ok leaves ->
     exists i property_fields type,
       first_non_null branches = Some (i, JObj property_fields) /\
       dict_get "type" property_fields = Some type /\
       leaves
       = [(flatten_key k parent_key sep,
           if is_list type then JObj property_fields
           else JObj (dict_set "type" (JArr [JStr "null"; type]) property_fields))]).
Proof.
  intros Htype Hany. unfold property_items. cbn [truthy length Nat.eqb negb].
  rewrite Htype, Hany. unfold any_of.
  destruct (existsb is_NULL_TYPE branches) eqn:Enull; cbn [negb orb].
  - destruct (2 <? length branches) eqn:Elen.
    + apply Nat.ltb_lt in Elen. split; [|done]. split; [by right|by eexists].
    + apply Nat.ltb_ge in Elen.
      assert (~ (true = false \/ 2 < length branches)) as Hno by (intros [?|?]; [done|lia]).
      destruct (first_non_null branches) as [[i property]|]; cbn [snd].
      * destruct property as [| | | | |property_fields];
          try (split; [split; [by intros [? ?]|done]|done]).
        destruct (dict_get "type" property_fields) as [type|] eqn:Et; cbn [snd].
        -- split; [split; [by intros [? ?]|done]|].
           intros leaves [= <-]. exists i, property_fields, type.
           split; [done|]. split; [done|]. by destruct (is_list type).
        -- split; [split; [by intros [? ?]|done]|done].
      * split; [split; [by intros [? ?]|done]|done].
  - split; [|done]. split; [by left|by eexists].
Qed.

Lemma any_of_node_witness :
  dict_get "type" [("anyOf" : str, JArr [NULL_TYPE; JObj [("type" : str, JStr "number")]])]
    = None /\
  has_key "anyOf" [("anyOf" : str, JArr [NULL_TYPE; JObj [("type" : str, JStr "number")]])]
    = true /\
  exists i property_fields type,
    first_non_null [NULL_TYPE; JObj [("type" : str, JStr "number")]]
      = Some (i, JObj property_fields) /\
    dict_get "type" property_fields = Some type /\
    [("amount" : str, JObj [("type" : str, JArr [JStr "null"; JStr "number"])])]
    = [(flatten_key "amount" [] default_sep,
        if is_list type then JObj property_fields
        else JObj (dict_set "type" (JArr [JStr "null"; type]) property_fields))].
Proof.
  split; [reflexivity|]. split; [reflexivity|].
  apply (proj2 (any_of_node (fun v _ => (v, Ok [])) [] default_sep "amount" "anyOf"
                  [NULL_TYPE; JObj [("type" : str, JStr "number")]] []
                  eq_refl eq_refl)).
  reflexivity.
Defined.

(** ** Records with clashing keys (C10) *)

Lemma keys_rev {V} (d : list (str * V)) : keys (rev d) = rev (keys d).
Proof. unfold keys. by rewrite map_rev. Qed.

Lemma dict_get_rev_NoDup {V} k (d : list (str * V)) :
  NoDup (keys d) -> dict_get k (rev d) = dict_get k d.
Proof.
  intros Hnd. destruct (dict_get k d) as [v|] eqn:E.
  - apply dict_get_NoDup.
    + by rewrite keys_rev, <- Permutation_rev.
    + rewrite <- Permutation_rev. by apply dict_get_Some_elem.
  - apply dict_get_None. rewrite keys_rev, <- Permutation_rev. by apply dict_get_None.
Qed.

Lemma flatten_mapping_NoDup v parent_key sep :
  NoDup (keys (flatten_mapping v parent_key sep)).
Proof.
  destruct v; try constructor. cbn [flatten_mapping]. apply dict_of_items_NoDup.
Qed.

Lemma flatten_mapping_last_wins sep v :
  forall parent_key key,
    dict_get key (flatten_mapping v parent_key sep)
    = dict_get key (rev (mapping_leaves v parent_key sep)).
Proof.
  induction v as [| | | | |entries IH] using json_ind; try done.
  intros parent_key key. cbn [flatten_mapping mapping_leaves].
  rewrite dict_of_items_get.
  induction IH as [|[k v] rest Hv _ IHrest]; [done|].
  rewrite !rev_app_distr, !dict_get_app, IHrest.
  match goal with |- match ?found with _ => _ end = _ => destruct found end; [done|].
  destruct v; try done. cbn [snd] in Hv.
  rewrite dict_get_rev_NoDup by apply flatten_mapping_NoDup. apply Hv.
Qed.

Example flatten_record_clash :
  flatten_record [("a" : str, JNum 1); ("A" : str, JNum 2)] [] default_sep
  = [("a" : str, JNum 2)].
Proof. reflexivity. Qed.

(** C10: [flatten_record] is a total function, it raises nothing; the
    mapping it returns has one entry for each flat identifier, and the entry
    of an identifier holds the value of the last leaf, in processing order,
    whose path flattens to that identifier. *)
Theorem flatten_record_last_wins d parent_key sep key :
  NoDup (keys (flatten_record d parent_key sep)) /\
  dict_get key (flatten_record d parent_key sep)
  = dict_get key (rev (record_leaves d parent_key sep)).
Proof.
  split; [apply flatten_mapping_NoDup|apply flatten_mapping_last_wins].
Qed.

(** ** The statements of a batch load (C3) *)

Section sessions.
Variable db : database.
Hypothesis db_answers : forall log c, db log c = None.

Lemma call_answers c log : call db c log = (log ++ [c], Ok tt).
Proof. unfold call. by rewrite db_answers. Qed.

Lemma for_each_calls {A} (f : A -> db_call) xs log :
  for_each (fun x => call db (f x)) xs log = (log ++ map f xs, Ok tt).
Proof.
  revert log. induction xs as [|x xs IH]; intros log; simpl.
  - by rewrite app_nil_r.
  - unfold then_. rewrite call_answers, IH. by rewrite <- app_assoc.
Qed.

Lemma for_each_call_pairs {A} (f g : A -> db_call) xs log :
  for_each (fun x => _ <~ call db (f x) ;; call db (g x)) xs log
  = (log ++ flat_map (fun x => [f x; g x]) xs, Ok tt).
Proof.
  revert log. induction xs as [|x xs IH]; intros log; simpl.
  - by rewrite app_nil_r.
  - unfold then_ at 1 2. rewrite !call_answers, IH. by rewrite <- !app_assoc.
Qed.
End sessions.



(** ** Column synchronisation (C7) *)

Section update_columns.
Variable db : database.
Hypothesis db_answers : forall log c, db log c = None.
Variable self : DbSync.
Variable columns : list catalog_column.

Lemma add_call_clause name type :
  (add_call self) (cat [safe_column_name name; " " : str; type])
  = alteration_call self (AddColumn name type).
Proof.
  unfold add_call, alteration_call, cat. cbn [concat]. by rewrite !app_nil_r.
Qed.

Lemma columns_to_add_typed flattened :
  Forall typed flattened ->
  exists to_add,
    columns_to_add (catalog columns) flattened = Ok to_add /\
    map (add_call self) to_add = map (alteration_call self) (flat_map (adds_of columns) flattened).
Proof.
  induction 1 as [|[name ps] rest [type Htype] _ (to_add & IH & Hcalls)].
  - by exists [].
  - cbn [columns_to_add flat_map]. unfold has_key, adds_of, column_clause.
    cbn [fst snd] in *. rewrite IH, Htype.
    destruct (dict_get (lower name) (catalog columns)); cbn [negb bind].
    + by exists to_add.
    + eexists. split; [done|]. cbn [map app]. by rewrite add_call_clause, Hcalls.
Qed.

Lemma columns_to_replace_typed flattened :
  Forall typed flattened ->
  exists to_replace,
    columns_to_replace (catalog columns) flattened = Ok to_replace /\
    flat_map (fun entry : str * str => [(drop_call self) entry.1; (add_call self) entry.2]) to_replace
    = map (alteration_call self) (flat_map (replaces_of columns) flattened).
Proof.
  induction 1 as [|[name ps] rest [type Htype] _ (to_replace & IH & Hcalls)].
  - by exists [].
  - cbn [columns_to_replace flat_map]. unfold replaces_of, column_clause.
    cbn [fst snd] in *. rewrite IH, Htype.
    destruct (dict_get (lower name) (catalog columns)) as [column|]; cbn [bind].
    + destruct (str_eqb (lower (data_type column)) (lower type)); cbn [negb bind].
      * by exists to_replace.
      * eexists. split; [done|]. cbn [flat_map map app fst snd].
        by rewrite add_call_clause, Hcalls.
    + by exists to_replace.
Qed.

(** The calls of [update_columns] are the catalog query and then the
    (planned columns) alterations. *)
Lemma update_columns_calls :
  Forall typed (self_flatten_schema self) ->
  update_columns db self columns []
  = (Execute get_table_columns_sql [lower (stream self); lower (schema_name self)]
     :: map (alteration_call self) ((planned columns) (self_flatten_schema self)),
     Ok tt).
Proof.
  intros Htyped.
  destruct (columns_to_add_typed _ Htyped) as (to_add & Hadd & Hadd_calls).
  destruct (columns_to_replace_typed _ Htyped) as (to_replace & Hrep & Hrep_calls).
  unfold update_columns, then_ at 1. rewrite call_answers by done.
  fold (catalog columns). unfold then_ at 1, lift. rewrite Hadd.
  unfold then_ at 1, add_column. fold (add_call self).
  rewrite (for_each_calls db db_answers (add_call self)).
  unfold then_ at 1. rewrite Hrep. unfold drop_column.
  rewrite (for_each_call_pairs db db_answers
             (fun entry : str * str => (drop_call self) entry.1)
             (fun entry : str * str => (add_call self) entry.2)).
  unfold planned. by rewrite Hadd_calls, Hrep_calls, map_app, <- app_assoc.
Qed.

Lemma adds_of_column kv a : In a ((adds_of columns) kv) -> altered_column a = kv.1.
Proof.
  unfold adds_of. destruct (dict_get _ _), (column_type kv.2); try done.
  by intros [<-|[]].
Qed.

Lemma replaces_of_column kv a : In a ((replaces_of columns) kv) -> altered_column a = kv.1.
Proof.
  unfold replaces_of. destruct (dict_get _ _) as [column|], (column_type kv.2) as [type|];
    try done.
  destruct (str_eqb _ _); [done|]. by intros [<-|[<-|[]]].
Qed.

Lemma planned_columns flattened a :
  In a ((planned columns) flattened) -> In (altered_column a) (keys flattened).
Proof.
  unfold planned. rewrite in_app_iff, !in_flat_map.
  intros [(kv & Hin & Ha)|(kv & Hin & Ha)];
    [apply adds_of_column in Ha|apply replaces_of_column in Ha];
    rewrite Ha; apply in_map_iff; by exists kv.
Qed.

(** Among the alterations made for the columns of a dictionary, those of
    one column are the ones made for its entry. *)
Lemma filter_alters_unique (f : str * json -> list alteration) flattened name ps :
  (forall kv a, In a (f kv) -> altered_column a = kv.1) ->
  NoDup (keys flattened) ->
  In (name, ps) flattened ->
  List.filter (alters name) (flat_map f flattened) = f (name, ps).
Proof.
  intros Hf.
  assert (forall kv, kv.1 = name -> List.filter (alters name) (f kv) = f kv) as Hsame.
  { intros kv Hkv. apply forallb_filter_id, forallb_forall. intros a Ha.
    unfold alters. rewrite (Hf kv a Ha), Hkv. apply str_eqb_refl. }
  assert (forall kv, kv.1 <> name -> List.filter (alters name) (f kv) = []) as Hother.
  { intros kv Hkv. pose proof (Hf kv) as Hkv'.
    induction (f kv) as [|a l IHl]; [done|]. cbn [List.filter].
    unfold alters at 1. rewrite (Hkv' a) by by left.
    apply str_eqb_neq in Hkv as ->. apply IHl. intros b Hb. apply Hkv'. by right. }
  assert (forall rest, name ∉ keys rest ->
                       List.filter (alters name) (flat_map f rest) = []) as Habsent.
  { induction rest as [|kv rest IHrest]; [done|]. cbn [keys map flat_map].
    intros [Hkv Hno]%not_elem_of_cons.
    rewrite List.filter_app, Hother, IHrest; done. }
  induction flattened as [|[n0 ps0] rest IH]; intros Hnd Hin; [done|].
  inversion Hnd as [|? ? Hn0 Hrest]; subst. cbn [flat_map]. rewrite List.filter_app.
  destruct Hin as [[= -> ->]|Hin].
  - by rewrite Hsame, Habsent, app_nil_r.
  - rewrite Hother, IH; [done..|]. cbn [fst]. intros ->. apply Hn0.
    apply list_elem_of_In, in_map_iff. by exists (name, ps).
Qed.

Lemma planned_for flattened name ps type :
  NoDup (keys flattened) ->
  In (name, ps) flattened ->
  column_type ps = Ok type ->
  List.filter (alters name) ((planned columns) flattened) = alterations_for columns name type.
Proof.
  intros Hnd Hin Htype. unfold planned. rewrite List.filter_app.
  rewrite (filter_alters_unique (adds_of columns) flattened name ps adds_of_column Hnd Hin).
  rewrite (filter_alters_unique (replaces_of columns) flattened name ps replaces_of_column Hnd Hin).
  unfold adds_of, replaces_of, alterations_for. cbn [fst snd]. rewrite Htype.
  destruct (dict_get (lower name) (catalog columns)) as [column|]; [|done].
  by destruct (str_eqb (lower (data_type column)) (lower type)).
Qed.
End update_columns.

(** C7: when the database accepts every statement and every column of the
    flattened schema has a mapped type, [update_columns] issues the catalog
    query and then one statement for each alteration of a plan in which:
    every alteration names a column of the flattened schema; a schema column
    that the catalog does not have (names compared in lower case) is added
    once, with its mapped type, and not dropped; a schema column whose
    catalog type differs from its mapped type (compared in lower case) is
    dropped and then added with the mapped type; and a schema column whose
    catalog type agrees is not named by any statement. *)
Theorem update_columns_alterations db self columns :
  (forall log c, db log c = None) ->
  NoDup (keys (self_flatten_schema self)) ->
  Forall (fun kv => exists type, column_type kv.2 = Ok type) (self_flatten_schema self) ->
  exists plan,
    update_columns db self columns []
    = (Execute get_table_columns_sql [lower (stream self); lower (schema_name self)]
       :: map (alteration_call self) plan,
       Ok tt) /\
    (forall a, In a plan -> In (altered_column a) (keys (self_flatten_schema self))) /\
    (forall name properties_schema type,
       In (name, properties_schema) (self_flatten_schema self) ->
       column_type properties_schema = Ok type ->
       List.filter (fun a => str_eqb (altered_column a) name) plan
       = alterations_for columns name type).
Proof.
  intros Hdb Hnd Htyped. exists (planned columns (self_flatten_schema self)).
  split; [by apply update_columns_calls|]. split.
  - apply planned_columns.
  - intros name ps type Hin Htype. by apply (planned_for columns _ name ps type).
Qed.

Lemma update_columns_alterations_witness :
  (forall log c, accepting_db log c = None) /\
  NoDup (keys (self_flatten_schema sample_sync)) /\
  Forall (fun kv => exists type, column_type kv.2 = Ok type)
    (self_flatten_schema sample_sync) /\
  exists plan,
    update_columns accepting_db sample_sync sample_catalog []
    = (Execute get_table_columns_sql
         [lower (stream sample_sync); lower (schema_name sample_sync)]
       :: map (alteration_call sample_sync) plan,
       Ok tt) /\
    (forall a, In a plan -> In (altered_column a) (keys (self_flatten_schema sample_sync))) /\
    (forall name properties_schema type,
       In (name, properties_schema) (self_flatten_schema sample_sync) ->
       column_type properties_schema = Ok type ->
       List.filter (fun a => str_eqb (altered_column a) name) plan
       = alterations_for sample_catalog name type).
Proof.
  assert (NoDup (keys (self_flatten_schema sample_sync))) as Hnd.
  { apply NoDup_cons. split; [|apply NoDup_singleton].
    intros H%list_elem_of_singleton. discriminate H. }
  assert (Forall (fun kv => exists type, column_type kv.2 = Ok type)
            (self_flatten_schema sample_sync)) as Htyped.
  { repeat constructor; eexists; reflexivity. }
  split; [done|]. split; [exact Hnd|]. split; [exact Htyped|].
  exact (update_columns_alterations accepting_db sample_sync sample_catalog
           (fun _ _ => eq_refl) Hnd Htyped).
Defined.

Example update_columns_sample :
  (update_columns accepting_db sample_sync sample_catalog []).1
  = Execute get_table_columns_sql [lower (stream sample_sync); lower (schema_name sample_sync)]
    :: map (alteration_call sample_sync)
         [AddColumn "name" "character varying"; DropColumn "id"; AddColumn "id" "bigint"].
Proof. reflexivity. Qed.

(** ** What [DbSync.__init__] establishes *)

Lemma contains_defined name type b : contains name type = Ok b -> iterable type = true.
Proof. by destruct type. Qed.

Lemma any_of_typed k new_key fields leaves :
  (any_of k new_key fields).2 = Ok leaves -> Forall typed leaves.
Proof.
  unfold any_of. destruct fields as [|[first_key properties] others]; [done|].
  destruct properties as [| | | |branches|]; try done.
  destruct (negb (existsb is_NULL_TYPE branches) || (2 <? length branches)); [done|].
  destruct (first_non_null branches) as [[i property]|]; [|done].
  destruct property as [| | | | |property_fields]; try done.
  destruct (dict_get "type" property_fields) as [type|] eqn:Etype; [|done].
  cbn [snd]. intros [= <-]. constructor; [|constructor]. unfold typed. cbn [snd].
  destruct type; cbn [is_list];
    try (eexists; apply column_type_mapped; [by rewrite dict_get_set|done]).
  all: eexists; by apply column_type_mapped.
Qed.

Lemma property_items_typed recurse parent_key sep k v leaves :
  (forall path m, (recurse v path).2 = Ok m -> Forall typed m) ->
  (property_items recurse parent_key sep k v).2 = Ok leaves ->
  Forall typed leaves.
Proof.
  intros Hrec. unfold property_items.
  destruct (negb (truthy v)); [by intros [= <-]|].
  destruct v as [| | | | |fields]; try done.
  destruct (dict_get "type" fields) as [type|] eqn:Etype.
  - destruct (contains "object" type) as [[]|] eqn:Ec; try done.
    + apply Hrec.
    + intros [= <-]. constructor; [|constructor]. eexists. cbn [snd].
      apply column_type_mapped; [done|]. by eapply contains_defined.
  - destruct (has_key "anyOf" fields); [apply any_of_typed|done].
Qed.

Lemma for_items_typed body properties leaves :
  Forall (fun kv => forall found, (body kv.1 kv.2).2 = Ok found -> Forall typed found)
    properties ->
  (for_items body properties).2 = Ok leaves ->
  Forall typed leaves.
Proof.
  intros H. revert leaves. induction H as [|[k v] rest Hv _ IH]; intros leaves.
  - by intros [= <-].
  - cbn [for_items fst snd] in *. destruct (body k v) as [v' [found|e]]; [|done].
    destruct (for_items body rest) as [rest' [more|e]]; [|done].
    cbn [snd bind] in *. intros [= <-]. apply Forall_app. split; [by apply Hv|by apply IH].
Qed.

Lemma sorted_unique_typed collected m :
  Forall typed collected -> sorted_unique collected = Ok m -> Forall typed m.
Proof.
  intros Htyped Hm. pose proof (sorted_unique_spec collected) as H.
  rewrite Hm in H. destruct H as (-> & _ & _).
  by rewrite (sorted_by_key_perm collected).
Qed.

Lemma flatten_schema_typed_entries sep entries :
  Forall (fun kv =>
            match kv.2 with
            | JObj property_list =>
                Forall (fun kv' => flattens_to_typed sep kv'.2) property_list
            | _ => True
            end) entries ->
  flattens_to_typed sep (JObj entries).
Proof.
  intros Hgrand parent_key m. rewrite flatten_schema_result.
  cbn [collected_items]. rewrite with_item_get.
  destruct (dict_get "properties" entries) as [properties|] eqn:Eget; [|done].
  pose proof (dict_get_Some_elem _ _ _ Eget) as Hin.
  rewrite Forall_forall in Hgrand. specialize (Hgrand _ Hin). cbn [snd] in Hgrand.
  destruct properties as [| | | | |property_list]; try done.
  destruct (for_items _ property_list).2 as [collected|e] eqn:Efor; [|done].
  cbn [bind]. apply sorted_unique_typed.
  eapply for_items_typed; [|exact Efor].
  eapply Forall_impl; [exact Hgrand|]. intros [k v] Hv found. cbn [fst snd] in *.
  apply property_items_typed. intros path m'. apply Hv.
Qed.

Lemma flatten_schema_typed_all sep d :
  flattens_to_typed sep d /\
  match d with
  | JObj entries => Forall (fun kv => flattens_to_typed sep kv.2) entries
  | _ => True
  end.
Proof.
  induction d as [| | | | |entries IH] using json_ind; try (split; [by intros ? ?|done]).
  split.
  - apply flatten_schema_typed_entries.
    eapply Forall_impl; [exact IH|]. by intros kv [_ H].
  - eapply Forall_impl; [exact IH|]. by intros kv [H _].
Qed.

Lemma create_table_query_typed self is_temporary :
  Forall typed (self_flatten_schema self) ->
  exists query, create_table_query self is_temporary = Ok query.
Proof.
  intros H. unfold create_table_query.
  assert (exists clauses,
            map_result (fun kv : str * json => column_clause kv.1 kv.2)
              (self_flatten_schema self) = Ok clauses) as [clauses ->].
  { induction H as [|[name ps] rest [type Htype] _ [clauses IH]]; [by eexists|].
    cbn [map_result fst snd] in *. unfold column_clause at 1. rewrite Htype.
    cbn [bind]. rewrite IH. by eexists. }
  by eexists.
Qed.

(** X17: a synchroniser that [__init__] has built holds a flattened schema with
    distinct column names, each with a mapped type, so that its [CREATE TABLE]
    statement is defined: the assumptions under which the statements of
    [load_csv] and [update_columns] are described. *)
Lemma new_DbSync_established connection_schema stream_name stream_keys schema self :
  new_DbSync connection_schema stream_name stream_keys schema = Ok self ->
  NoDup (keys (self_flatten_schema self)) /\
  Forall typed (self_flatten_schema self) /\
  exists query, create_table_query self true = Ok query.
Proof.
  unfold new_DbSync.
  destruct (flatten_schema schema [] default_sep).2 as [m|e] eqn:Em; [|done].
  cbn [bind]. intros [= <-]. cbn [self_flatten_schema].
  pose proof (proj1 (flatten_schema_typed_all default_sep schema) [] m Em) as Htyped.
  rewrite flatten_schema_result in Em.
  destruct (collected_items schema [] default_sep) as [collected|e]; [|done].
  cbn [bind] in Em. pose proof (sorted_unique_spec collected) as Hspec.
  rewrite Em in Hspec. destruct Hspec as (_ & Hsorted & _).
  split; [by apply strongly_sorted_NoDup|]. split; [done|].
  by apply create_table_query_typed.
Qed.

Lemma new_DbSync_established_witness :
  exists self,
    new_DbSync "public" "users" (strs ["id"]) schema_without_anyOf = Ok self /\
    NoDup (keys (self_flatten_schema self)) /\
    Forall typed (self_flatten_schema self) /\
    exists query, create_table_query self true = Ok query.
Proof.
  eexists. split; [reflexivity|].
  exact (new_DbSync_established "public" "users" (strs ["id"]) schema_without_anyOf _ eq_refl).
Defined.

(** * Further properties of the module *)

(** ** Identifiers that need no shortening, and what shortening costs *)

Lemma flatten_key_fits k parent_key sep :
  length (join sep (map inflect_column_name (parent_key ++ [k]))) < 63 ->
  flatten_key k parent_key sep = join sep (map inflect_column_name (parent_key ++ [k])).
Proof.
  intros Hlen. unfold flatten_key.
  destruct (map inflect_column_name (parent_key ++ [k])) as [|segment rest] eqn:E;
    [done|].
  cbn [length shorten_loop]. apply Nat.leb_gt in Hlen. by rewrite Hlen.
Qed.

(** X1: a path whose inflected segments join to fewer than 63 characters
    is not shortened: [flatten_key] returns the plain join of the inflected
    segments, and for a single segment that is [inflect_column_name] of it,
    the name that [primary_column_names] uses for a key property. *)
Theorem flatten_key_short_path k parent_key sep :
  length (join sep (map inflect_column_name (parent_key ++ [k]))) < 63 ->
  flatten_key k parent_key sep = join sep (map inflect_column_name (parent_key ++ [k])).
Proof. apply flatten_key_fits. Qed.

Lemma flatten_key_short_path_witness :
  length (join default_sep (map inflect_column_name (strs ["HomeAddress"] ++ ["zipCode" : str])))
    < 63 /\
  flatten_key "zipCode" (strs ["HomeAddress"]) default_sep
  = join default_sep (map inflect_column_name (strs ["HomeAddress"] ++ ["zipCode" : str])).
Proof.
  split; [vm_compute; lia|].
  apply (flatten_key_short_path "zipCode" (strs ["HomeAddress"]) default_sep).
  vm_compute. lia.
Defined.







(** X3: with the separator of the module, an identifier has no upper-case
    letter and no hyphen, shortened or not; so lower-casing a column name, as
    the catalog comparison of [update_columns] does, leaves it as it is. *)
Theorem flatten_key_lower_case k parent_key :
  upper_free (flatten_key k parent_key default_sep) /\
  hyphen_free (flatten_key k parent_key default_sep) /\
  lower (flatten_key k parent_key default_sep) = flatten_key k parent_key default_sep.
Proof.
  pose proof (flatten_key_settled k parent_key) as H.
  split; [by apply settled_upper_free|]. split; [by apply settled_hyphen_free|].
  by apply lower_id, settled_upper_free.
Qed.

(** ** What inflection does to the characters of a name *)

Lemma lower_char_underscore c :
  is_char underscore_char (lower_char c) = is_char underscore_char c.
Proof. each_char c; reflexivity. Qed.

Lemma without_underscores_app a b :
  without_underscores (a ++ b) = without_underscores a ++ without_underscores b.
Proof. apply List.filter_app. Qed.

Lemma re_sub_from_inserting m b k s :
  inserting m ->
  without_underscores (re_sub_from m b k s) = without_underscores (drop k s).
Proof.
  intros Hm. revert b k. induction s as [|c t IH]; intros b k; simpl.
  - by destruct k.
  - destruct k as [|k]; [|apply IH].
    destruct (m b (c :: t)) as [[rep n]|] eqn:E.
    + destruct (Hm _ _ _ _ E) as (Hn & Hrep). destruct n as [|n]; [lia|].
      rewrite without_underscores_app, Hrep, IH, <- without_underscores_app.
      cbn [pred take]. by rewrite <- app_comm_cons, take_drop.
    + change (c :: re_sub_from m false 0 t) with ([c] ++ re_sub_from m false 0 t).
      rewrite without_underscores_app, IH. by rewrite <- without_underscores_app.
Qed.

Lemma re_sub_inserting m s :
  inserting m -> without_underscores (re_sub m s) = without_underscores s.
Proof. intros Hm. apply (re_sub_from_inserting m true 0 s Hm). Qed.

Lemma take_of_drop (k : nat) (t x r : str) :
  drop k t = x ++ r -> take (k + length x) t = take k t ++ x.
Proof.
  revert t. induction k as [|k IH]; intros t; simpl.
  - intros H. change (drop 0 t) with t in H. subst t. by rewrite take_app_length.
  - destruct t as [|c t]; simpl.
    + intros H. symmetry in H. apply app_eq_nil in H as [-> _]. done.
    + intros H. by rewrite IH.
Qed.

Lemma acronym_underscore_inserting : inserting acronym_underscore.
Proof.
  intros b t rep n Hm. apply backtrack_some in Hm as [k Hm].
  destruct (drop k t) as [|u [|c1 [|c2 r]]] eqn:Ed; try done.
  destruct (is_char underscore_char u) eqn:Eu; [|done].
  destruct (is_upper c1); [|done]. destruct (is_lower c2); [|done]. cbn [andb] in Hm.
  injection Hm as <- <-. split; [lia|].
  pose proof (take_of_drop k t [u; c1; c2] r Ed) as Ht. cbn [length] in Ht.
  rewrite Ht, !without_underscores_app.
  f_equal. unfold without_underscores. cbn [List.filter]. by rewrite Eu.
Qed.

Lemma camel_underscore_inserting : inserting camel_underscore.
Proof.
  intros b t rep n. unfold camel_underscore. destruct t as [|c0 [|u [|c1 r]]]; try done.
  destruct (is_lower c0 || is_digit c0); [|done].
  destruct (is_char underscore_char u) eqn:Eu; [|done].
  destruct (is_upper c1); [|done]. cbn [andb]. intros [= <- <-]. split; [lia|].
  unfold without_underscores. cbn [take List.filter]. by rewrite Eu.
Qed.

Lemma acronym_boundary_inserting : inserting acronym_boundary.
Proof.
  intros b t rep n Hm. apply backtrack_some in Hm as [k Hm].
  destruct (drop k t) as [|c1 [|c2 r]] eqn:Ed; try done.
  destruct (is_upper c1 && is_lower c2); [|done].
  injection Hm as <- <-. split; [lia|].
  pose proof (take_of_drop k t [c1; c2] r Ed) as Ht. cbn [length] in Ht.
  by rewrite Ht, !without_underscores_app.
Qed.

Lemma camel_boundary_inserting : inserting camel_boundary.
Proof.
  intros b t rep n. unfold camel_boundary. destruct t as [|c0 [|c1 r]]; try done.
  destruct ((is_lower c0 || is_digit c0) && is_upper c1); [|done].
  intros [= <- <-]. split; [lia|]. done.
Qed.

(** Lower-casing and the replacement of hyphens commute with the removal of
    underscores, up to the removal of the hyphens. *)
Lemma without_underscores_lowered s :
  without_underscores (lower (replace_char hyphen_char underscore_char s))
  = lower (List.filter (fun c => negb (is_char hyphen_char c)) (without_underscores s)).
Proof.
  unfold lower, replace_char, without_underscores.
  induction s as [|c s IH]; [done|]. cbn [map List.filter].
  destruct (is_char hyphen_char c) eqn:Eh.
  - apply is_char_eq in Eh as <-. cbn [map List.filter]. apply IH.
  - rewrite lower_char_underscore.
    destruct (is_char underscore_char c); cbn [negb map List.filter]; [apply IH|].
    rewrite Eh. cbn [negb map]. by rewrite IH.
Qed.

(** X4: [inflect_column_name] changes a name only by inserting underscores,
    turning hyphens into underscores and lower-casing: once the underscores
    are taken out, its result is the lower-cased name with hyphens and
    underscores taken out.  No other character is added, dropped or moved. *)
Theorem inflect_column_name_only_inserts_underscores name :
  without_underscores (inflect_column_name name)
  = without_underscores (lower (replace_char hyphen_char underscore_char name)).
Proof.
  unfold inflect_column_name, inflection.underscore.
  rewrite !without_underscores_lowered. do 2 f_equal.
  rewrite (re_sub_inserting _ _ camel_boundary_inserting).
  rewrite (re_sub_inserting _ _ acronym_boundary_inserting).
  rewrite (re_sub_inserting _ _ camel_underscore_inserting).
  by rewrite (re_sub_inserting _ _ acronym_underscore_inserting).
Qed.

(** ** The names and the failures of [flatten_schema] *)

Section flattened_keys.
Variable sep : str.
Variable Qk : str -> Prop.
Hypothesis flatten_key_Qk : forall k parent_key, Qk (flatten_key k parent_key sep).

Lemma any_of_keys k new_key fields leaves :
  (any_of k new_key fields).2 = Ok leaves -> keys leaves = [new_key].
Proof.
  unfold any_of. destruct fields as [|[first_key properties] others]; [done|].
  destruct properties as [| | | |branches|]; try done.
  destruct (negb (existsb is_NULL_TYPE branches) || (2 <? length branches)); [done|].
  destruct (first_non_null branches) as [[i property]|]; [|done].
  destruct property as [| | | | |property_fields]; try done.
  destruct (dict_get "type" property_fields) as [type|]; [|done].
  by intros [= <-].
Qed.

Lemma property_items_keys recurse parent_key k v leaves :
  (forall path m, (recurse v path).2 = Ok m -> Forall Qk (keys m)) ->
  (property_items recurse parent_key sep k v).2 = Ok leaves ->
  Forall Qk (keys leaves).
Proof.
  intros Hrec. unfold property_items.
  destruct (negb (truthy v)); [intros [= <-]; constructor|].
  destruct v as [| | | | |fields]; try done.
  destruct (dict_get "type" fields) as [type|].
  - destruct (contains "object" type) as [[]|]; try done; [apply Hrec|].
    intros [= <-]. constructor; [apply flatten_key_Qk|constructor].
  - destruct (has_key "anyOf" fields); [|done].
    intros H%any_of_keys. rewrite H. constructor; [apply flatten_key_Qk|constructor].
Qed.

Lemma for_items_keys body properties leaves :
  Forall (fun kv => forall found, (body kv.1 kv.2).2 = Ok found -> Forall Qk (keys found))
    properties ->
  (for_items body properties).2 = Ok leaves ->
  Forall Qk (keys leaves).
Proof.
  intros H. revert leaves. induction H as [|[k v] rest Hv _ IH]; intros leaves.
  - intros [= <-]. constructor.
  - cbn [for_items fst snd] in *. destruct (body k v) as [v' [found|e]]; [|done].
    destruct (for_items body rest) as [rest' [more|e]]; [|done].
    cbn [snd bind] in *. intros [= <-]. unfold keys. rewrite map_app.
    apply Forall_app. split; [by apply Hv|by apply IH].
Qed.

Lemma sorted_unique_keys collected m :
  Forall Qk (keys collected) -> sorted_unique collected = Ok m -> Forall Qk (keys m).
Proof.
  intros HQ Hm. pose proof (sorted_unique_spec collected) as H.
  rewrite Hm in H. destruct H as (-> & _ & _).
  unfold keys in *. by rewrite (sorted_by_key_perm collected).
Qed.

Lemma flatten_schema_keys_entries entries :
  Forall (fun kv =>
            match kv.2 with
            | JObj property_list =>
                Forall (fun kv' => flattens_to_keys Qk sep kv'.2) property_list
            | _ => True
            end) entries ->
  flattens_to_keys Qk sep (JObj entries).
Proof.
  intros Hgrand parent_key m. rewrite flatten_schema_result.
  cbn [collected_items]. rewrite with_item_get.
  destruct (dict_get "properties" entries) as [properties|] eqn:Eget; [|done].
  pose proof (dict_get_Some_elem _ _ _ Eget) as Hin.
  rewrite Forall_forall in Hgrand. specialize (Hgrand _ Hin). cbn [snd] in Hgrand.
  destruct properties as [| | | | |property_list]; try done.
  destruct (for_items _ property_list).2 as [collected|e] eqn:Efor; [|done].
  cbn [bind]. apply sorted_unique_keys.
  eapply for_items_keys; [|exact Efor].
  eapply Forall_impl; [exact Hgrand|]. intros [k v] Hv found. cbn [fst snd] in *.
  apply property_items_keys. intros path m'. apply Hv.
Qed.

Lemma flatten_schema_keys_all d :
  flattens_to_keys Qk sep d /\
  match d with
  | JObj entries => Forall (fun kv => flattens_to_keys Qk sep kv.2) entries
  | _ => True
  end.
Proof.
  induction d as [| | | | |entries IH] using json_ind; try (split; [by intros ? ?|done]).
  split.
  - apply flatten_schema_keys_entries.
    eapply Forall_impl; [exact IH|]. by intros kv [_ H].
  - eapply Forall_impl; [exact IH|]. by intros kv [H _].
Qed.
End flattened_keys.

(** X5: every column name of a flattened schema is an identifier made by
    [flatten_key]: with the separator of the module it has no upper-case
    letter and no hyphen, and lower-casing leaves it as it is, at every
    depth of the schema. *)
Theorem flatten_schema_names_lower_case d parent_key m :
  (flatten_schema d parent_key default_sep).2 = Ok m ->
  Forall (fun name => settled name /\ lower name = name) (keys m).
Proof.
  apply (proj1 (flatten_schema_keys_all default_sep
                  (fun name => settled name /\ lower name = name)
                  (fun k parent => conj (flatten_key_settled k parent)
                                     (lower_id _ (settled_upper_free _
                                                    (flatten_key_settled k parent))))
                  d)).
Qed.

Lemma flatten_schema_names_lower_case_witness :
  (flatten_schema schema_without_anyOf [] default_sep).2
  = Ok [("address__zip_code" : str, JObj [("type" : str, JArr [JStr "null"; JStr "string"])]);
        ("id" : str, JObj [("type" : str, JStr "integer")])] /\
  Forall (fun name => settled name /\ lower name = name)
    (strs ["address__zip_code"; "id"]).
Proof.
  split; [reflexivity|].
  exact (flatten_schema_names_lower_case schema_without_anyOf [] _ eq_refl).
Defined.

Lemma for_items_raises body properties k v e :
  In (k, v) properties -> (body k v).2 = Raise e ->
  exists e', (for_items body properties).2 = Raise e'.
Proof.
  induction properties as [|[k0 v0] rest IH]; [done|].
  intros [[= -> ->]|Hin] He; cbn [for_items].
  - destruct (body k v) as [v' r]. cbn [snd] in He. subst r. by exists e.
  - destruct (body k0 v0) as [v' [found|e0]]; [|by exists e0].
    destruct (IH Hin He) as [e' He'].
    destruct (for_items body rest) as [rest' r']. cbn [snd] in *. subst r'. by exists e'.
Qed.

Lemma object_property_raises sep parent_key k fields type :
  dict_get "type" fields = Some type ->
  contains "object" type = Ok true ->
  dict_get "properties" fields = None ->
  (property_items (fun v path => flatten_schema v path sep) parent_key sep k (JObj fields)).2
  = Raise KeyError.
Proof.
  intros Htype Hobject Hprops. unfold property_items.
  assert (truthy (JObj fields) = true) as ->.
  { destruct fields; [done|reflexivity]. }
  cbn [negb]. rewrite Htype, Hobject. cbn [flatten_schema].
  by rewrite with_item_get, Hprops.
Qed.

(** X6: a property whose type includes [object] must carry its own
    ['properties']: a schema that has, among its properties, an object
    without them is never flattened, [flatten_schema] raises; and when that
    property comes first the exception is the [KeyError] of the missing
    entry. *)
Theorem flatten_schema_bare_object sep parent_key entries property_list k fields type :
  dict_get "properties" entries = Some (JObj property_list) ->
  In (k, JObj fields) property_list ->
  dict_get "type" fields = Some type ->
  contains "object" type = Ok true ->
  dict_get "properties" fields = None ->
  (exists e, (flatten_schema (JObj entries) parent_key sep).2 = Raise e) /\
  (forall rest, property_list = (k, JObj fields) :: rest ->
     (flatten_schema (JObj entries) parent_key sep).2 = Raise KeyError).
Proof.
  intros Hprops Hin Htype Hobject Hbare.
  pose proof (object_property_raises sep parent_key k fields type Htype Hobject Hbare)
    as Hraise.
  rewrite flatten_schema_result. cbn [collected_items]. rewrite with_item_get, Hprops.
  split.
  - destruct (for_items_raises _ _ _ _ _ Hin Hraise) as [e' ->]. by exists e'.
  - intros rest ->. cbn [for_items].
    destruct (property_items _ parent_key sep k (JObj fields)) as [v' r].
    cbn [snd] in Hraise. by subst r.
Qed.

Lemma flatten_schema_bare_object_witness :
  dict_get "properties" [("properties" : str,
                           JObj [("payload" : str, JObj [("type" : str, JStr "object")])])]
  = Some (JObj [("payload" : str, JObj [("type" : str, JStr "object")])]) /\
  In ("payload" : str, JObj [("type" : str, JStr "object")])
    [("payload" : str, JObj [("type" : str, JStr "object")])] /\
  (flatten_schema
     (JObj [("properties" : str,
             JObj [("payload" : str, JObj [("type" : str, JStr "object")])])])
     [] default_sep).2 = Raise KeyError.
Proof.
  split; [reflexivity|]. split; [by left|].
  eapply (proj2 (flatten_schema_bare_object default_sep []
                   [("properties" : str,
                     JObj [("payload" : str, JObj [("type" : str, JStr "object")])])]
                   [("payload" : str, JObj [("type" : str, JStr "object")])]
                   "payload" [("type" : str, JStr "object")] (JStr "object")
                   eq_refl (or_introl eq_refl) eq_refl eq_refl eq_refl)).
  reflexivity.
Defined.

(** ** Flattening a schema a second time *)

Lemma first_non_null_insert branches i property property' :
  first_non_null branches = Some (i, property) ->
  is_NULL_TYPE property' = false ->
  first_non_null (<[i := property']> branches) = Some (i, property') /\
  existsb is_NULL_TYPE (<[i := property']> branches) = existsb is_NULL_TYPE branches.
Proof.
  intros Hfirst Hnot. revert i Hfirst.
  induction branches as [|x branches IH]; intros i; cbn [first_non_null]; [done|].
  destruct (is_NULL_TYPE x) eqn:Ex.
  - destruct (first_non_null branches) as [[j y]|]; [|done]. intros [= <- <-].
    destruct (IH j eq_refl) as [H1 H2].
    change (<[S j := property']> (x :: branches)) with (x :: <[j := property']> branches).
    cbn [first_non_null existsb]. by rewrite Ex, H1, H2.
  - intros [= <- <-].
    change (<[0 := property']> (x :: branches)) with (property' :: branches).
    cbn [first_non_null existsb]. by rewrite Ex, Hnot.
Qed.

Lemma normalized_branch_not_null type property_fields :
  is_NULL_TYPE (JObj (dict_set "type" (JArr [JStr "null"; type]) property_fields)) = false.
Proof.
  destruct property_fields as [|[k v] [|kv rest]]; cbn [dict_set is_NULL_TYPE].
  - by rewrite andb_false_r.
  - destruct (str_eqb "type" k); cbn [is_NULL_TYPE]; [by rewrite andb_false_r|done].
  - destruct (str_eqb "type" k); [done|]. destruct kv as [k' v'].
    cbn [dict_set]. by destruct (str_eqb "type" k').
Qed.

(** [any_of] leaves the node as it is, or rewrites the type of the accepted
    branch, which was not a list. *)
Lemma any_of_cases k new_key fields :
  (any_of k new_key fields).1 = JObj fields \/
  exists first_key branches others i property_fields type,
    fields = (first_key, JArr branches) :: others /\
    negb (existsb is_NULL_TYPE branches) || (2 <? length branches) = false /\
    first_non_null branches = Some (i, JObj property_fields) /\
    dict_get "type" property_fields = Some type /\
    is_list type = false /\
    any_of k new_key fields
    = (JObj ((first_key,
              JArr (<[i := JObj (dict_set "type" (JArr [JStr "null"; type]) property_fields)]>
                      branches)) :: others),
       Ok [(new_key, JObj (dict_set "type" (JArr [JStr "null"; type]) property_fields))]).
Proof.
  unfold any_of. destruct fields as [|[first_key properties] others]; [by left|].
  destruct properties as [| | | |branches|]; try by left.
  destruct (negb (existsb is_NULL_TYPE branches) || (2 <? length branches)) eqn:Eguard;
    [by left|].
  destruct (first_non_null branches) as [[i property]|] eqn:Efirst; [|by left].
  destruct property as [| | | | |property_fields]; try by left.
  destruct (dict_get "type" property_fields) as [type|] eqn:Ept; [|by left].
  destruct (is_list type) eqn:Elist.
  - left. cbn [fst]. by rewrite list_insert_id by by apply first_non_null_lookup.
  - right. by exists first_key, branches, others, i, property_fields, type.
Qed.

Lemma any_of_settles k new_key fields :
  dict_get "type" fields = None ->
  exists fields',
    (any_of k new_key fields).1 = JObj fields' /\
    dict_get "type" fields' = None /\
    has_key "anyOf" fields' = has_key "anyOf" fields /\
    length fields' = length fields /\
    any_of k new_key fields' = any_of k new_key fields.
Proof.
  intros Htype.
  destruct (any_of_cases k new_key fields)
    as [Hsame|(first_key & branches & others & i & property_fields & type
               & -> & Eguard & Efirst & Ept & Elist & Hany)].
  { by exists fields. }
  rewrite Hany. eexists. split; [reflexivity|].
  split; [|split; [|split; [done|]]].
  - cbn [dict_get] in *. by destruct (str_eqb "type" first_key).
  - unfold has_key. cbn [dict_get]. by destruct (str_eqb "anyOf" first_key).
  - destruct (first_non_null_insert branches i _
                (JObj (dict_set "type" (JArr [JStr "null"; type]) property_fields))
                Efirst (normalized_branch_not_null type property_fields))
      as [Hfirst' Hexists'].
    unfold any_of. rewrite Hexists', length_insert, Eguard, Hfirst'.
    rewrite dict_get_set, str_eqb_refl. cbn [is_list].
    by rewrite list_insert_insert_eq.
Qed.

(** The tree that [flatten_schema] returns for a dictionary is a dictionary
    that differs from it at ['properties'] at most. *)
Lemma flatten_schema_tree fields parent_key sep :
  exists fields',
    (flatten_schema (JObj fields) parent_key sep).1 = JObj fields' /\
    dict_get "type" fields' = dict_get "type" fields /\
    length fields' = length fields.
Proof.
  cbn [flatten_schema]. rewrite with_item_get.
  destruct (dict_get "properties" fields) as [properties|] eqn:Eget; [|by exists fields].
  destruct properties as [| | | | |property_list]; try by exists fields.
  destruct (for_items _ property_list) as [property_list' collected].
  eexists. split; [reflexivity|]. split.
  - by rewrite dict_get_set.
  - revert Eget. generalize (JObj property_list). intros found.
    induction fields as [|[k v] fields IH]; [done|]. cbn [dict_get dict_set].
    destruct (str_eqb "properties" k); cbn [length]; [done|]. intros H. by rewrite IH.
Qed.

Lemma property_items_settles sep parent_key k v :
  settles sep v ->
  property_items (fun v path => flatten_schema v path sep) parent_key sep k
    (property_items (fun v path => flatten_schema v path sep) parent_key sep k v).1
  = property_items (fun v path => flatten_schema v path sep) parent_key sep k v.
Proof.
  intros Hv. unfold property_items at 2 3.
  destruct (negb (truthy v)) eqn:Etruthy.
  { unfold property_items. cbn [fst]. by rewrite Etruthy. }
  destruct v as [| | | | |fields].
  1-5: unfold property_items; cbn [fst]; by rewrite Etruthy.
  destruct (dict_get "type" fields) as [type|] eqn:Etype.
  - destruct (contains "object" type) as [[]|] eqn:Eobject.
    + destruct (flatten_schema_tree fields (parent_key ++ [k]) sep)
        as (fields' & Htree & Htype' & Hlen).
      specialize (Hv (parent_key ++ [k])). cbv beta.
      destruct (flatten_schema (JObj fields) (parent_key ++ [k]) sep) as [tree r] eqn:Efs.
      cbn [fst] in *. subst tree. unfold property_items. cbn [truthy] in *.
      by rewrite Hlen, Etruthy, Htype', Etype, Eobject.
    + unfold property_items. cbn [fst]. by rewrite Etruthy, Etype, Eobject.
    + unfold property_items. cbn [fst]. by rewrite Etruthy, Etype, Eobject.
  - destruct (has_key "anyOf" fields) eqn:Eany.
    + destruct (any_of_settles k (flatten_key k parent_key sep) fields Etype)
        as (fields' & Htree & Htype' & Hany' & Hlen & Hsame).
      rewrite Htree. unfold property_items. cbn [truthy] in *.
      by rewrite Hlen, Etruthy, Htype', Hany', Eany.
    + unfold property_items. cbn [fst]. by rewrite Etruthy, Etype, Eany.
Qed.

Lemma for_items_settles body properties :
  Forall (fun kv => body kv.1 (body kv.1 kv.2).1 = body kv.1 kv.2) properties ->
  for_items body (for_items body properties).1 = for_items body properties.
Proof.
  induction 1 as [|[k v] rest Hv _ IH]; [done|]. cbn [for_items fst snd] in *.
  destruct (body k v) as [v' [found|e]] eqn:Ebody; cbn [fst] in Hv.
  - destruct (for_items body rest) as [rest' r'] eqn:Erest. cbn [fst for_items] in *.
    by rewrite Hv, IH.
  - cbn [fst for_items]. by rewrite Hv.
Qed.

Lemma flatten_schema_settles_entries sep entries :
  Forall (fun kv =>
            match kv.2 with
            | JObj property_list => Forall (fun kv' => settles sep kv'.2) property_list
            | _ => True
            end) entries ->
  settles sep (JObj entries).
Proof.
  intros Hgrand parent_key. cbn [flatten_schema]. rewrite with_item_get.
  destruct (dict_get "properties" entries) as [properties|] eqn:Eget.
  2: { cbn [fst flatten_schema]. by rewrite with_item_get, Eget. }
  pose proof (dict_get_Some_elem _ _ _ Eget) as Hin.
  rewrite Forall_forall in Hgrand. specialize (Hgrand _ Hin). cbn [snd] in Hgrand.
  destruct properties as [| | | | |property_list];
    try (cbn [fst flatten_schema]; by rewrite with_item_get, Eget).
  pose proof (for_items_settles
                (property_items (fun v path => flatten_schema v path sep) parent_key sep)
                property_list) as Hfor.
  destruct (for_items _ property_list) as [property_list' collected] eqn:Efor.
  cbn [fst] in *. cbn [flatten_schema]. rewrite with_item_get, dict_get_set, str_eqb_refl.
  rewrite Hfor.
  - f_equal. f_equal. apply dict_set_same. by rewrite dict_get_set, str_eqb_refl.
  - eapply Forall_impl; [exact Hgrand|]. intros [k v] Hv. cbn [fst snd] in *.
    by apply property_items_settles.
Qed.

Lemma flatten_schema_settles_all sep d :
  settles sep d /\
  match d with
  | JObj entries => Forall (fun kv => settles sep kv.2) entries
  | _ => True
  end.
Proof.
  induction d as [| | | | |entries IH] using json_ind; try (split; [by intros ?|done]).
  split.
  - apply flatten_schema_settles_entries.
    eapply Forall_impl; [exact IH|]. by intros kv [_ H].
  - eapply Forall_impl; [exact IH|]. by intros kv [H _].
Qed.

Example flatten_schema_twice :
  flatten_schema (flatten_schema schema_with_anyOf [] default_sep).1 [] default_sep
  = flatten_schema schema_with_anyOf [] default_sep.
Proof. reflexivity. Qed.

(** X7: the assignment that [flatten_schema] makes into its argument is
    made once: flattening again the tree that a call has left behind returns
    the same tree and the same result, mapping or exception, as that call.
    A schema object can therefore be flattened any number of times. *)
Theorem flatten_schema_settled d parent_key sep :
  flatten_schema (flatten_schema d parent_key sep).1 parent_key sep
  = flatten_schema d parent_key sep.
Proof. apply (proj1 (flatten_schema_settles_all sep d)). Qed.

(** ** Batch loads that the database interrupts *)




(** ** Synchronising a table that is up to date *)

Lemma created_columns_catalog flattened name properties_schema type :
  NoDup (map lower (keys flattened)) ->
  In (name, properties_schema) flattened ->
  column_type properties_schema = Ok type ->
  Forall typed flattened ->
  dict_get (lower name) (catalog (created_columns flattened))
  = Some {| column_name := name; data_type := type |}.
Proof.
  intros Hnd Hin Htype Htyped. unfold catalog.
  assert (map (fun c => (lower (column_name c), c)) (created_columns flattened)
          = map (fun kv : str * json =>
                   (lower kv.1,
                    {| column_name := kv.1;
                       data_type := match column_type kv.2 with
                                    | Ok t => t
                                    | Raise _ => []
                                    end |})) flattened) as ->.
  { clear Hnd Hin. induction Htyped as [|[n ps] rest [t Ht] _ IH]; [done|].
    cbn [created_columns flat_map map fst snd app] in *. rewrite Ht. cbn [map app].
    by rewrite <- IH. }
  rewrite dict_of_items_unique.
  - apply dict_get_NoDup.
    + unfold keys. rewrite map_map. cbn [fst]. by rewrite <- map_map.
    + apply list_elem_of_In, in_map_iff. exists (name, properties_schema).
      cbn [fst snd]. by rewrite Htype.
  - unfold keys. rewrite map_map. cbn [fst]. by rewrite <- map_map.
Qed.

Lemma planned_created flattened :
  NoDup (map lower (keys flattened)) ->
  Forall typed flattened ->
  planned (created_columns flattened) flattened = [].
Proof.
  intros Hnd Htyped. unfold planned.
  assert (forall kv, In kv flattened ->
            adds_of (created_columns flattened) kv = [] /\
            replaces_of (created_columns flattened) kv = []) as Hnone.
  { intros [name ps] Hin. rewrite Forall_forall in Htyped.
    destruct (Htyped (name, ps)) as [type Htype]; [by apply list_elem_of_In|].
    cbn [snd] in Htype. unfold adds_of, replaces_of. cbn [fst snd].
    rewrite (created_columns_catalog flattened name ps type Hnd Hin Htype)
      by by apply Forall_forall.
    rewrite Htype. cbn [data_type]. by rewrite str_eqb_refl. }
  assert (forall (f : str * json -> list alteration) l,
            (forall kv, In kv l -> f kv = []) -> flat_map f l = []) as Hflat.
  { intros f l Hf. induction l as [|kv l IH]; [done|]. cbn [flat_map].
    rewrite Hf by by left. apply IH. intros kv' Hkv'. apply Hf. by right. }
  rewrite !Hflat; [done| |]; intros kv Hkv; by apply Hnone.
Qed.

(** X10: synchronising a table that has exactly the columns of the
    flattened schema, each with its mapped type, changes nothing: when the
    column names are distinct in lower case, [update_columns] issues the
    catalog query and no [ALTER TABLE] statement at all. *)
Theorem update_columns_up_to_date db self :
  (forall log c, db log c = None) ->
  NoDup (map lower (keys (self_flatten_schema self))) ->
  Forall (fun kv => exists type, column_type kv.2 = Ok type) (self_flatten_schema self) ->
  update_columns db self (created_columns (self_flatten_schema self)) []
  = ([Execute get_table_columns_sql [lower (stream self); lower (schema_name self)]],
     Ok tt).
Proof.
  intros Hdb Hnd Htyped.
  rewrite (update_columns_calls db Hdb self _ Htyped).
  by rewrite planned_created.
Qed.

Lemma update_columns_up_to_date_witness :
  (forall log c, accepting_db log c = None) /\
  NoDup (map lower (keys (self_flatten_schema sample_sync))) /\
  Forall (fun kv => exists type, column_type kv.2 = Ok type)
    (self_flatten_schema sample_sync) /\
  update_columns accepting_db sample_sync
    (created_columns (self_flatten_schema sample_sync)) []
  = ([Execute get_table_columns_sql
        [lower (stream sample_sync); lower (schema_name sample_sync)]],
     Ok tt).
Proof.
  assert (NoDup (map lower (keys (self_flatten_schema sample_sync)))) as Hnd.
  { apply NoDup_cons. split; [|apply NoDup_singleton].
    intros H%list_elem_of_singleton. discriminate H. }
  assert (Forall (fun kv => exists type, column_type kv.2 = Ok type)
            (self_flatten_schema sample_sync)) as Htyped.
  { repeat constructor; eexists; reflexivity. }
  split; [done|]. split; [exact Hnd|]. split; [exact Htyped|].
  exact (update_columns_up_to_date accepting_db sample_sync (fun _ _ => eq_refl) Hnd Htyped).
Defined.

(** ** Creating or updating the table *)

(** X11: when the database accepts every statement, [sync_table] asks for
    the tables of the schema and then does one of two things: if no table
    has the name of the stream, compared in lower case, it issues the
    [CREATE TABLE] statement and nothing else; otherwise it issues no
    [CREATE] and continues exactly as [update_columns] does. *)
Theorem sync_table_creates_or_updates db self tables columns query :
  (forall log c, db log c = None) ->
  create_table_query self false = Ok query ->
  sync_table db self tables columns []
  = if existsb (fun table => str_eqb (lower table) (lower (stream self))) tables
    then update_columns db self columns [Execute get_tables_sql [schema_name self]]
    else ([Execute get_tables_sql [schema_name self]; Execute query []], Ok tt).
Proof.
  intros Hdb Hquery. unfold sync_table, then_ at 1. rewrite call_answers by done.
  cbn [app].
  induction tables as [|table tables IH].
  - cbn [List.filter length Nat.eqb existsb]. unfold then_, lift. rewrite Hquery.
    by rewrite call_answers.
  - cbn [List.filter existsb].
    destruct (str_eqb (lower table) (lower (stream self))); [done|]. apply IH.
Qed.

Lemma sync_table_creates_or_updates_witness :
  (forall log c, accepting_db log c = None) /\
  (exists query,
     create_table_query sample_sync false = Ok query /\
     sync_table accepting_db sample_sync (strs ["orders"; "Users"]) sample_catalog []
     = update_columns accepting_db sample_sync sample_catalog
         [Execute get_tables_sql [schema_name sample_sync]] /\
     sync_table accepting_db sample_sync (strs ["orders"]) sample_catalog []
     = ([Execute get_tables_sql [schema_name sample_sync]; Execute query []], Ok tt)).
Proof.
  split; [done|]. eexists. split; [reflexivity|]. split.
  - rewrite (sync_table_creates_or_updates accepting_db sample_sync
               (strs ["orders"; "Users"]) sample_catalog _ (fun _ _ => eq_refl) eq_refl).
    reflexivity.
  - rewrite (sync_table_creates_or_updates accepting_db sample_sync
               (strs ["orders"]) sample_catalog _ (fun _ _ => eq_refl) eq_refl).
    reflexivity.
Defined.

(** ** Flattened records *)

Lemma dict_set_Forall {V} (Q : str * V -> Prop) k v d :
  Q (k, v) -> Forall Q d -> Forall Q (dict_set k v d).
Proof.
  intros Hkv. induction 1 as [|[k' v'] d Hk' Hd IH]; cbn [dict_set].
  - by repeat constructor.
  - destruct (str_eqb k k') eqn:E.
    + apply str_eqb_eq in E as <-. by constructor.
    + by constructor.
Qed.

Lemma dict_of_items_Forall {V} (Q : str * V -> Prop) items :
  Forall Q items -> Forall Q (dict_of_items items).
Proof.
  rewrite dict_of_items_fold.
  assert (forall d, Forall Q d -> Forall Q items ->
                    Forall Q (fold_left dict_update items d)) as H.
  { induction items as [|[k v] items IH]; intros d Hd Hitems; [done|].
    inversion Hitems as [|? ? Hkv Hrest]; subst. cbn [fold_left].
    apply IH; [|done]. by apply dict_set_Forall. }
  intros Hitems. apply H; [constructor|done].
Qed.

Lemma flatten_mapping_entries sep v :
  forall parent_key,
    Forall (fun kv => made_by_flatten_key sep kv.1 /\ is_scalar kv.2 = true)
      (flatten_mapping v parent_key sep).
Proof.
  induction v as [| | | | |entries IH] using json_ind; try (intros ?; constructor).
  intros parent_key. cbn [flatten_mapping]. apply dict_of_items_Forall.
  induction IH as [|[k v] rest Hv _ IHrest]; [constructor|].
  apply Forall_app. split; [|exact IHrest]. cbn [snd] in Hv.
  destruct v; try apply Hv; (constructor; [|constructor]); cbn [fst snd record_value];
    (split; [by eexists _, _|done]).
Qed.

(** X12: every entry of a flattened record has an identifier made by
    [flatten_key] as its key and a value that is neither a list nor a
    mapping: lists are stored as their JSON text and mappings are flattened
    away, at every depth. *)
Theorem flatten_record_entries d parent_key sep :
  Forall (fun kv =>
            (exists k path, kv.1 = flatten_key k path sep) /\ is_scalar kv.2 = true)
    (flatten_record d parent_key sep).
Proof. apply flatten_mapping_entries. Qed.



(** ** The line of a record *)

Lemma json_escape_printable c : Forall printable (json_escape c).
Proof. each_char c; repeat (constructor; [reflexivity|]); constructor. Qed.

Lemma literal_printable (s : string) :
  forallb (fun c => (32 <=? code c) && (code c <=? 126)) (str_of_string s) = true ->
  Forall printable (str_of_string s).
Proof.
  induction (str_of_string s) as [|c t IH]; [constructor|].
  cbn [forallb]. intros [Hc Ht]%andb_prop. by constructor; [|apply IH].
Qed.

Lemma literal_printable_uint d : Forall printable (NilEmpty.string_of_uint d : str).
Proof.
  induction d; unfold str_of_string in *; cbn [NilEmpty.string_of_uint list_ascii_of_string];
    constructor; done.
Qed.

Lemma decimal_printable n : Forall printable (NilZero.string_of_int (Z.to_int n) : str).
Proof.
  unfold NilZero.string_of_int, NilZero.string_of_uint.
  destruct (Z.to_int n) as [d|d]; unfold str_of_string.
  - destruct d; try apply literal_printable_uint. by repeat constructor.
  - cbn [list_ascii_of_string]. constructor; [done|].
    destruct d; try apply literal_printable_uint. by repeat constructor.
Qed.

Lemma cat_Forall (P : ascii -> Prop) parts : Forall (Forall P) parts -> Forall P (cat parts).
Proof. intros H. by apply Forall_concat. Qed.

Lemma json_string_printable s : Forall printable (json_string s).
Proof.
  unfold json_string. apply cat_Forall.
  constructor; [by repeat constructor|]. constructor; [|by repeat constructor].
  apply Forall_concat, Forall_map, Forall_forall.
  intros c _. apply json_escape_printable.
Qed.

Lemma json_dumps_printable v : Forall printable (json_dumps v).
Proof.
  induction v as [|[]|n|s|elements IH|entries IH] using json_ind; cbn [json_dumps].
  - by apply literal_printable.
  - by apply literal_printable.
  - by apply literal_printable.
  - apply decimal_printable.
  - apply json_string_printable.
  - apply cat_Forall.
    constructor; [by apply literal_printable|].
    constructor; [|constructor; [by apply literal_printable|constructor]].
    apply join_Forall; [by apply literal_printable|]. by apply Forall_map.
  - apply cat_Forall.
    constructor; [by apply literal_printable|].
    constructor; [|constructor; [by apply literal_printable|constructor]].
    apply join_Forall; [by apply literal_printable|]. apply Forall_map.
    eapply Forall_impl; [exact IH|]. intros [k x] Hx. cbn [snd] in Hx.
    apply cat_Forall.
    constructor; [apply json_string_printable|].
    constructor; [by apply literal_printable|]. by constructor.
Qed.

(** X14: the line that [record_to_csv_line] writes for a record holds
    printable ASCII characters only, whatever the record: no line break, no
    control character and no character beyond the tilde can reach the file
    of a batch, so a record is one line of it. *)
Theorem record_to_csv_line_printable self record :
  Forall printable (record_to_csv_line self record) /\
  ~ In newline_char (record_to_csv_line self record).
Proof.
  assert (Forall printable (record_to_csv_line self record)) as H.
  { unfold record_to_csv_line. apply join_Forall; [by repeat constructor|].
    apply Forall_map, Forall_forall. intros name _. unfold csv_field.
    destruct (dict_get name _) as [v|]; [|constructor].
    destruct v; try apply json_dumps_printable. constructor. }
  split; [done|]. intros Hin. rewrite Forall_forall in H.
  by specialize (H newline_char (proj2 (list_elem_of_In _ _) Hin)).
Qed.

(** ** The key of a record *)

Lemma key_values_raise flatten key_properties :
  match map_result
          (fun p => v <- flat_item flatten (inflect_column_name p) ;; Ok (py_str v))
          key_properties with
  | Ok values => Forall (fun p => has_key (inflect_column_name p) flatten = true) key_properties
  | Raise e =>
      e = KeyError /\
      Exists (fun p => has_key (inflect_column_name p) flatten = false) key_properties
  end.
Proof.
  induction key_properties as [|p rest IH]; cbn [map_result]; [constructor|].
  unfold flat_item at 1, has_key.
  destruct (dict_get (inflect_column_name p) flatten) as [v|] eqn:E; cbn [bind].
  - destruct (map_result _ rest) as [values|e]; cbn [bind].
    + constructor; [by rewrite E|done].
    + destruct IH as [-> IH]. split; [done|]. by apply Exists_cons_tl.
  - split; [done|]. apply Exists_cons_hd. by rewrite E.
Qed.

(** X15: [record_primary_key_string] returns [None] exactly when the stream
    has no key properties; otherwise it returns a string when every key
    property, inflected, is a key of the flattened record, and raises
    [KeyError], its only exception, when one is not. *)
Theorem record_primary_key_string_outcome self record :
  match record_primary_key_string self record with
  | Ok None => key_properties self = []
  | Ok (Some _) =>
      key_properties self <> [] /\
      Forall (fun p => has_key (inflect_column_name p)
                         (flatten_record record [] default_sep) = true)
        (key_properties self)
  | Raise e =>
      e = KeyError /\
      Exists (fun p => has_key (inflect_column_name p)
                         (flatten_record record [] default_sep) = false)
        (key_properties self)
  end.
Proof.
  unfold record_primary_key_string.
  destruct (key_properties self) as [|p rest] eqn:Ekeys; [done|].
  cbn [length Nat.eqb].
  pose proof (key_values_raise (flatten_record record [] default_sep) (p :: rest)) as H.
  destruct (map_result _ (p :: rest)) as [values|e]; cbn [bind]; [|done].
  by split.
Qed.

(** ** Nullable types *)

(** X16: the rewrite of a nullable type does not change the column: for
    each of the type names that the type mapper tells apart, a descriptor
    with that name as its type and the same descriptor with the pair of null
    and that name get the same storage type, whatever else the descriptor
    holds. *)
Theorem column_type_nullable name others :
  In name json_type_names ->
  column_type (JObj (("type" : str, JArr [JStr "null"; JStr name]) :: others))
  = column_type (JObj (("type" : str, JStr name) :: others)).
Proof.
  intros Hname.
  rewrite (column_type_mapped _ (JArr [JStr "null"; JStr name])) by done.
  rewrite (column_type_mapped _ (JStr name)) by done.
  unfold mapped_type.
  change (format_is_date_time (("type" : str, JArr [JStr "null"; JStr name]) :: others))
    with (format_is_date_time (("type" : str, JStr name) :: others)).
  destruct (format_is_date_time (("type" : str, JStr name) :: others));
    repeat (destruct Hname as [<-|Hname]; [reflexivity|]); destruct Hname.
Qed.

Lemma column_type_nullable_witness :
  In ("integer" : str) json_type_names /\
  column_type (JObj [("type" : str, JArr [JStr "null"; JStr "integer"]);
                     ("format" : str, JStr "int64")])
  = column_type (JObj [("type" : str, JStr "integer"); ("format" : str, JStr "int64")]).
Proof.
  assert (In ("integer" : str) json_type_names) as Hin by (do 2 right; by left).
  split; [exact Hin|].
  exact (column_type_nullable "integer" [("format" : str, JStr "int64")] Hin).
Defined.
